(** * The simplex tableau: pivot selection, pivoting and the driver loop

    A shallow embedding of the three routines of the notebook
    "The simplex tableau" (Algorithm 16.4 of Bierlaire, Optimization:
    principles and algorithms):

    - [simplexTableau]           (the specification's selectPivot),
    - [pivoting]                 (the specification's applyPivot),
    - [simplexAlgorithmTableau]  (the specification's runSimplex),

    with [printResult] of the notebook "Tableau", and of [lineSearch] of
    the notebook "Line search algorithm" (Algorithm 11.5).

    The three routines are translated twice, line by line the same.

    The first translation has exact rationals for entries ([Q], compared
    with [==], [<], [<=]) and [np.inf] as a separate value of the extended
    type [ext]: it is the exact-arithmetic reading of the code.  What is
    stated on it rests on the guards, the indices, the shapes and the
    comparisons of entries of the input, which are those of float64, or is
    stated of exact arithmetic in so many words.  A 2-D array is the list
    of its rows there, and an array without rows has no columns.

    The second translation, module [F64], has the entries in binary64, the
    element type of the arrays that the routines compute, and keeps the
    shape with the array.  What depends on a computed quotient, product or
    difference is stated on it: rounding, overflow to [inf] and NaN are
    those of the code. *)

From Stdlib Require Import String DecimalString.
From Stdlib Require Floats.
From Stdlib Require Import List ZArith QArith Qabs Qfield Bool Lia Lqa.
Import ListNotations.

Local Open Scope nat_scope.

(** ** Exceptions *)

(** The three [raise Exception(...)] statements of [pivoting]. *)
Inductive pivot_fault : Type :=
| RowOutOfRange      (* 'The row of the pivot (q) must be between 0 and m - 1' *)
| ColumnOutOfRange   (* 'The column of the pivot (p) must be between 0 and n - 1' *)
| PivotTooSmall.     (* 'The pivot is too close to zero' *)

(** What a call can raise: the exceptions of [pivoting], and the two
    numpy raises out of range ([IndexError] of an index outside the array,
    [ValueError] of [argmin]/[argmax] on an empty sequence). *)
Inductive exn : Type :=
| PivotException (why : pivot_fault)
| IndexError
| ValueError.

Definition result (A : Type) : Type := (exn + A)%type.

Definition ret {A} (a : A) : result A := inr a.
Definition raise {A} (e : exn) : result A := inl e.
Definition bind {A B} (c : result A) (k : A -> result B) : result B :=
  match c with
  | inl e => inl e
  | inr a => k a
  end.

Notation "x <- c ;; k" := (bind c (fun x => k))
  (at level 61, c at next level, right associativity).

(** ** Numbers *)

Definition Qltb (x y : Q) : bool :=
  match Qcompare x y with
  | Lt => true
  | _ => false
  end.

(** [np.finfo(float).eps], that is 2^-52. *)
Definition eps : Q := (1 # 4503599627370496)%Q.

(** A step length: a finite ratio or [np.inf]. *)
Inductive ext : Type :=
| Fin (x : Q)
| PInf.

Definition ext_ltb (a b : ext) : bool :=
  match a, b with
  | Fin x, Fin y => Qltb x y
  | Fin _, PInf => true
  | PInf, _ => false
  end.

(** [step == np.inf] *)
Definition is_inf (a : ext) : bool :=
  match a with
  | PInf => true
  | Fin _ => false
  end.

Definition bool_ltb (a b : bool) : bool := negb a && b.

(** ** Arrays *)

Definition row : Type := list Q.
Definition tableau : Type := list row.

(** [tableau.shape]; without a row the list keeps no number of columns,
    where numpy keeps the [n] of a shape (0, n): [F64.ndarray] has it. *)
Definition nrows (T : tableau) : nat := length T.
Definition ncols (T : tableau) : nat :=
  match T with
  | [] => 0
  | r :: _ => length r
  end.

Definition rectangular (T : tableau) : Prop :=
  Forall (fun r => length r = ncols T) T.

(** [T[i]] and [T[i][j]] at indices already brought into range. *)
Definition get_row (T : tableau) (i : nat) : row := nth i T [].
Definition get (T : tableau) (i j : nat) : Q := nth j (get_row T i) 0%Q.

(** numpy's reading of an integer index on an axis of length [len]:
    a negative index counts from the end; [None] is [IndexError]. *)
Definition index (len : nat) (i : Z) : option nat :=
  if (0 <=? i)%Z then
    if (i <? Z.of_nat len)%Z then Some (Z.to_nat i) else None
  else
    if (- Z.of_nat len <=? i)%Z then Some (Z.to_nat (i + Z.of_nat len)) else None.

Fixpoint set_nth {X : Type} (i : nat) (x : X) (l : list X) : list X :=
  match l, i with
  | [], _ => []
  | _ :: l', O => x :: l'
  | y :: l', S i' => y :: set_nth i' x l'
  end.

(** An elementwise operation on two rows; numpy applies it to rows of one
    length. *)
Fixpoint map2 {X Y Z : Type} (f : X -> Y -> Z) (l1 : list X) (l2 : list Y) : list Z :=
  match l1, l2 with
  | x :: l1', y :: l2' => f x y :: map2 f l1' l2'
  | _, _ => []
  end.

(** [np.argmax] / [np.argmin]: the index of the first occurrence of the
    extreme value.  [arg_scan better l i bi bv] scans [l], whose head has
    index [i], with the best value [bv] seen so far at index [bi]; only a
    strictly better value replaces it. *)
Fixpoint arg_scan {X : Type} (better : X -> X -> bool)
         (l : list X) (i bi : nat) (bv : X) : nat :=
  match l with
  | [] => bi
  | x :: l' =>
      if better x bv then arg_scan better l' (S i) i x
      else arg_scan better l' (S i) bi bv
  end.

Definition arg_first {X : Type} (better : X -> X -> bool) (l : list X) : result nat :=
  match l with
  | [] => raise ValueError
  | x :: l' => ret (arg_scan better l' 1 0 x)
  end.

Definition argmax (l : list bool) : result nat :=
  arg_first (fun x best => bool_ltb best x) l.

Definition argmin (l : list ext) : result nat :=
  arg_first ext_ltb l.

(** [a.any()] *)
Definition any (l : list bool) : bool := existsb (fun b => b) l.

(** ** simplexTableau: one iteration, the choice of the pivot *)

(** The returned tuple [p, q, opt, bounded] takes three forms only. *)
Inductive decision : Type :=
| Optimal                 (* None, None, True, True *)
| UnboundedDir            (* None, None, False, False *)
| Pivot (p q : nat).      (* p, q, False, True *)

(** [tableau[-1, :-1]] *)
Definition reduced_costs (T : tableau) : result (list Q) :=
  match T with
  | [] => raise IndexError
  | _ :: _ => ret (removelast (last T []))
  end.

(** [steps]: the list comprehension over [range(m)].  The quotient is the
    exact one here; [F64.step_list] has the rounded one, which can tie with
    another or overflow to [inf]. *)
Definition step_list (xb minusd : list Q) (m : nat) : list ext :=
  map (fun k => if Qltb 0 (nth k minusd 0%Q)
                then Fin (nth k xb 0 / nth k minusd 0)%Q
                else PInf)
      (seq 0 m).

(** The first half of [simplexTableau]: the column that enters the basis,
    [None] when no reduced cost is negative. *)
Definition entering_column (T : tableau) : result (option nat) :=
  reducedCost <- reduced_costs T ;;
  (* Identify the negative reduced costs *)
  let negativeReducedCost := map (fun c => Qltb c 0%Q) reducedCost in
  if negb (any negativeReducedCost) then ret None
  else
    p <- argmax negativeReducedCost ;;
    ret (Some p).

(** The second half: the maximum step along the basic direction of
    column [p], and the row that leaves the basis. *)
Definition ratio_test (T : tableau) (p : nat) : result decision :=
  let m := nrows T - 1 in
  let xb := map (fun r => last r 0%Q) (removelast T) in        (* tableau[:-1, -1] *)
  let minusd := map (fun r => nth p r 0%Q) (removelast T) in   (* tableau[:-1, p] *)
  let steps := step_list xb minusd m in
  q <- argmin steps ;;
  let step := nth q steps PInf in
  if is_inf step then ret UnboundedDir   (* The tableau is unbounded *)
  else ret (Pivot p q).

Definition simplexTableau (T : tableau) : result decision :=
  e <- entering_column T ;;
  match e with
  | None => ret Optimal                  (* The tableau is optimal *)
  | Some p => ratio_test T p
  end.

(** ** pivoting: the Gauss-Jordan step

    [pivoting] reads the array [tableau] and fills a new array
    [newtableau], obtained from [np.empty].  Arrays are objects: the model
    keeps them in a heap, a location is an index in it.  [thepivotrow] is a
    view of [tableau], so it is read through the heap at each use.  The
    rows are computed in exact arithmetic here, and in binary64 by
    [F64.pivoting_on]. *)

Definition heap : Type := list tableau.
Definition loc : Type := nat.

Definition deref (h : heap) (l : loc) : tableau := nth l h [].

Definition alloc (h : heap) (A : tableau) : heap * loc := (h ++ [A], length h).

(** [A[i, :] = r] on the array at location [l]. *)
Definition store_row (h : heap) (l : loc) (i : nat) (r : row) : heap :=
  set_nth l (set_nth i r (deref h l)) h.

(** [np.empty((m, n))]: the shape is given, the content is whatever the
    memory holds, here [junk]. *)
Definition np_empty (junk : nat -> nat -> Q) (m n : nat) : tableau :=
  map (fun i => map (junk i) (seq 0 n)) (seq 0 m).

(** [set(range(m)) - {q}]: the rows visited by the loop.  Each visit writes
    one row of [newtableau] from [tableau] alone, so the order of the visits
    does not matter; the model visits in increasing order. *)
Definition other_rows (m : nat) (q : Z) : list nat :=
  filter (fun i => negb (Z.of_nat i =? q)%Z) (seq 0 m).

Definition pivoting_on (junk : nat -> nat -> Q) (h : heap) (t : loc) (p q : Z)
  : result (heap * loc) :=
  let m := nrows (deref h t) in
  let n := ncols (deref h t) in
  if (q >=? Z.of_nat m)%Z then raise (PivotException RowOutOfRange)
  else if (p >=? Z.of_nat n)%Z then raise (PivotException ColumnOutOfRange)
  else
    match index m q, index n p with
    | Some qi, Some pi =>
        let thepivot := get (deref h t) qi pi in
        if Qltb (Qabs thepivot) eps then raise (PivotException PivotTooSmall)
        else
          let '(h1, newtableau) := alloc h (np_empty junk m n) in
          let h2 :=
            store_row h1 newtableau qi
              (map (fun x => x / thepivot)%Q (get_row (deref h1 t) qi)) in
          let h3 :=
            fold_left
              (fun hh i =>
                 store_row hh newtableau i
                   (map2 (fun a b => a - get (deref hh t) i pi * b / thepivot)%Q
                         (get_row (deref hh t) i)
                         (get_row (deref hh t) qi)))
              (other_rows m q) h2 in
          ret (h3, newtableau)
    | _, _ => raise IndexError
    end.

(** The function of its argument that [pivoting] computes: the call on a
    heap that holds the argument only. *)
Definition pivoting (T : tableau) (p q : Z) : result tableau :=
  r <- pivoting_on (fun _ _ => 0%Q) [T] 0 p q ;;
  ret (deref (fst r) (snd r)).

(** ** simplexAlgorithmTableau: the loop *)

(** The two returned flags [optimal, unbounded]. *)
Inductive status : Type :=
| StatusOptimal       (* True, False *)
| StatusUnbounded.    (* False, True *)

(** [while True] has no bound: [fuel] bounds the number of iterations, and
    [None] says the loop is still running when the fuel is spent. *)
Fixpoint simplexAlgorithmTableau (fuel : nat) (T : tableau)
  : option (result (tableau * status)) :=
  match fuel with
  | O => None
  | S fuel' =>
      match simplexTableau T with
      | inl e => Some (raise e)
      | inr Optimal => Some (ret (T, StatusOptimal))
      | inr UnboundedDir => Some (ret (T, StatusUnbounded))
      | inr (Pivot colPivot rowPivot) =>
          match pivoting T (Z.of_nat colPivot) (Z.of_nat rowPivot) with
          | inl e => Some (raise e)
          | inr T' => simplexAlgorithmTableau fuel' T'
          end
      end
  end.

(** The decision on which the loop returns with status [s]. *)
Definition decision_of (s : status) : decision :=
  match s with
  | StatusOptimal => Optimal
  | StatusUnbounded => UnboundedDir
  end.

(** The value of the loop variable [tableau] when iteration [k] starts
    (iterations count from 0), if the loop gets there. *)
Fixpoint tableau_at (k : nat) (T : tableau) : option tableau :=
  match k with
  | O => Some T
  | S k' =>
      match simplexTableau T with
      | inr (Pivot colPivot rowPivot) =>
          match pivoting T (Z.of_nat colPivot) (Z.of_nat rowPivot) with
          | inr T' => tableau_at k' T'
          | inl _ => None
          end
      | _ => None
      end
  end.

(** [np.array] of a nested list of integers. *)
Definition inject_tableau (T : list (list Z)) : tableau :=
  map (map inject_Z) T.

(** ** The vocabulary of the statements *)

(** A tableau has [m + 1] rows and [n + 1] columns: [m] constraint rows
    and the row of the reduced costs, [n] variable columns and the
    right-hand side. *)
Definition m_of (T : tableau) : nat := nrows T - 1.
Definition n_of (T : tableau) : nat := ncols T - 1.

(** The input format: rectangular, at least 2 rows and 2 columns. *)
Definition well_formed (T : tableau) : Prop :=
  2 <= nrows T /\ 2 <= ncols T /\ rectangular T.

(** The reduced cost of column [j]. *)
Definition cost (T : tableau) (j : nat) : Q := get T (m_of T) j.

(** [p] is the first column, from the left, with a negative reduced cost. *)
Definition first_negative (T : tableau) (p : nat) : Prop :=
  p < n_of T /\ (cost T p < 0)%Q /\ forall j, j < p -> (0 <= cost T j)%Q.

(** The ratio of row [i] for the entering column [p]. *)
Definition ratio (T : tableau) (p i : nat) : Q :=
  (get T i (n_of T) / get T i p)%Q.

(** [q] is the first row that attains the least ratio among the
    constraint rows with a positive entry in column [p]. *)
Definition min_ratio_row (T : tableau) (p q : nat) : Prop :=
  q < m_of T /\ (0 < get T q p)%Q /\
  (forall i, i < m_of T -> (0 < get T i p)%Q -> (ratio T p q <= ratio T p i)%Q) /\
  (forall i, i < q -> (0 < get T i p)%Q -> (ratio T p q < ratio T p i)%Q).

(** Equality of arrays in exact arithmetic: same shape, entries equal as
    rationals. *)
Definition tableau_eq (A B : tableau) : Prop :=
  Forall2 (Forall2 Qeq) A B.


(** What [pivoting] returns when its three checks pass, in closed form:
    row [q] divided by the pivot, every other row reduced by its multiple
    of row [q]. *)
Definition pivoted (T : tableau) (pi qi : nat) (q : Z) : tableau :=
  map (fun i =>
         if (Z.of_nat i =? q)%Z
         then map (fun x => x / get T qi pi)%Q (get_row T i)
         else map2 (fun a b => a - get T i pi * b / get T qi pi)%Q
                   (get_row T i) (get_row T qi))
      (seq 0 (nrows T)).

(** [r] is the first position of [l] that holds the best value. *)
Definition first_best {X : Type} (better : X -> X -> bool) (d : X)
           (l : list X) (r : nat) : Prop :=
  r < length l /\
  (forall j, j < length l -> better (nth j l d) (nth r l d) = false) /\
  (forall j, j < r -> better (nth r l d) (nth j l d) = true).


(** The examples of the notebooks. *)
Definition T1 : tableau :=
  inject_tableau [[1;2;2;1;0;0;20];[2;1;2;0;1;0;20];[2;2;1;0;0;1;20];
                  [-10;-12;-12;0;0;0;0]]%Z.
Definition T2 : tableau := inject_tableau [[1;0;1];[0;-2;-3]]%Z.
Definition T3 : tableau :=
  inject_tableau [[1;-1;1;0;2];[0;2;-1;1;4];[0;-3;2;0;4]]%Z.

(** The tableau that the loop returns on [T1]. *)
Definition T1_final : tableau :=
  match simplexAlgorithmTableau 4 T1 with
  | Some (inr (T, _)) => T
  | _ => []
  end.

(** A reduced cost that is negative and tiny. *)
Definition T_tiny_cost : tableau :=
  [[1; 1]; [- (1 # 1152921504606846976); 0]]%Q.

(** A pivot that is positive and below [eps]: 2^-53. *)
Definition T_tiny_pivot : tableau :=
  [[1 # 9007199254740992; 1; 1]; [-1; 0; 0]]%Q.

(** ** printResult

    [print] writes a line; the model returns the lines written, in
    order. *)




(** ** lineSearch: the inexact line search with the two Wolfe conditions

    Vectors are 1-D numpy arrays, lists here.  The objective [obj] is an
    argument: it returns the value and the gradient, or raises.  Numbers
    are exact rationals: what is stated of [lineSearch] is which of its
    checks raises, in the order of the source. *)

(** The six [raise Exception(...)] statements of [lineSearch]. *)
Inductive ls_fault : Type :=
| BadLambda            (* 'lambda is ... and must be > 1' *)
| BadAlpha0            (* 'alpha0 is ... and must be > 0' *)
| BadBeta1             (* 'beta1 = ... must be strictly between 0 and 1' *)
| BadBeta2             (* 'beta2 = ... must be strictly lesser than 1' *)
| IncompatibleBetas    (* 'Incompatible Wolfe cond. parameters: ...' *)
| NotDescent.          (* 'd is not a descent direction: ...' *)

Inductive ls_exn : Type :=
| LsException (why : ls_fault)
| ShapeError           (* numpy's ValueError: operands of different lengths *)
| ObjRaised (e : exn).

Definition ls_result (A : Type) : Type := (ls_exn + A)%type.

Definition ls_bind {A B} (c : ls_result A) (k : A -> ls_result B) : ls_result B :=
  match c with
  | inl e => inl e
  | inr a => k a
  end.












(** ** The three routines on float64 arrays

    The routines compute in binary64: a quotient or a product is rounded,
    it overflows to an infinity, and [inf - inf] is NaN; a comparison with
    a NaN is false.  Module [F64] is the translation of the same source
    with the entries in binary64 (Rocq's primitive floats, whose operations
    are those of IEEE 754 in round-to-nearest-even) and with numpy's own
    [argmin] on floats.  The statements that the arithmetic decides are made
    on it.  An array carries its shape: [np.empty((m, n))] has [n] columns
    whatever [m]. *)

(** A float that is not NaN, as a point of a line: its class and sign, then
    its exponent, then its mantissa, compared in that order. *)
Definition sf_key (f : SpecFloat.spec_float) : Z * Z * Z :=
  match f with
  | SpecFloat.S754_zero _ => (0, 0, 0)%Z
  | SpecFloat.S754_infinity s => (if s then (-2)%Z else 2%Z, 0%Z, 0%Z)
  | SpecFloat.S754_nan => (0, 0, 0)%Z
  | SpecFloat.S754_finite s m e =>
      if s then ((-1)%Z, (- e)%Z, Z.neg m) else (1%Z, e, Z.pos m)
  end.

Definition lt3 (a b : Z * Z * Z) : Prop :=
  let '(a1, a2, a3) := a in
  let '(b1, b2, b3) := b in
  (a1 < b1 \/ (a1 = b1 /\ (a2 < b2 \/ (a2 = b2 /\ a3 < b3))))%Z.

Definition eq3 (a b : Z * Z * Z) : Prop :=
  let '(a1, a2, a3) := a in
  let '(b1, b2, b3) := b in
  (a1 = b1 /\ a2 = b2 /\ a3 = b3)%Z.

Definition sf_nan (f : SpecFloat.spec_float) : bool :=
  match f with
  | SpecFloat.S754_nan => true
  | _ => false
  end.

Definition key (x : PrimFloat.float) : Z * Z * Z := sf_key (FloatOps.Prim2SF x).

Module F64.
Import PrimFloat.

Definition row : Type := list float.

(** A 2-D array of dtype float64: [shape[1]] and the rows. *)
Record ndarray : Type := Array { ncols : nat; rows : list row }.

(** [shape[0]] *)
Definition nrows (T : ndarray) : nat := length (rows T).

(** Every row of an array has [shape[1]] entries. *)
Definition rectangular (T : ndarray) : Prop :=
  Forall (fun r => length r = ncols T) (rows T).

(** [np.array] of a nested list with a first row. *)
Definition of_rows (l : list row) : ndarray :=
  Array (match l with [] => 0 | r :: _ => length r end) l.

Definition get_row (T : ndarray) (i : nat) : row := nth i (rows T) [].
Definition get (T : ndarray) (i j : nat) : float := nth j (get_row T i) 0%float.

(** [np.finfo(float).eps] *)
Definition eps : float := 0x1p-52%float.

(** [np.argmin] on float64, numpy's loop: the running minimum [mp], found
    at index [bi], is replaced by [x] when [!(x >= mp)], which holds of a
    smaller [x] and of a NaN, and the scan ends at the first NaN. *)
Fixpoint argmin_scan (l : list float) (i bi : nat) (mp : float) : nat :=
  match l with
  | [] => bi
  | x :: l' =>
      if negb (leb mp x) then
        if is_nan x then i else argmin_scan l' (S i) i x
      else argmin_scan l' (S i) bi mp
  end.

Definition argmin (l : list float) : result nat :=
  match l with
  | [] => raise ValueError
  | x :: l' => if is_nan x then ret 0 else ret (argmin_scan l' 1 0 x)
  end.

(** [tableau[-1, :-1]] *)
Definition reduced_costs (T : ndarray) : result (list float) :=
  match rows T with
  | [] => raise IndexError
  | _ :: _ => ret (removelast (last (rows T) []))
  end.

(** [steps]: the list comprehension over [range(m)]. *)
Definition step_list (xb minusd : list float) (m : nat) : list float :=
  map (fun k => if ltb 0 (nth k minusd 0%float)
                then div (nth k xb 0%float) (nth k minusd 0%float)
                else infinity)
      (seq 0 m).

Definition entering_column (T : ndarray) : result (option nat) :=
  reducedCost <- reduced_costs T ;;
  (* Identify the negative reduced costs *)
  let negativeReducedCost := map (fun c => ltb c 0%float) reducedCost in
  if negb (any negativeReducedCost) then ret None
  else
    p <- argmax negativeReducedCost ;;
    ret (Some p).

Definition ratio_test (T : ndarray) (p : nat) : result decision :=
  let m := nrows T - 1 in
  let xb := map (fun r => last r 0%float) (removelast (rows T)) in       (* tableau[:-1, -1] *)
  let minusd := map (fun r => nth p r 0%float) (removelast (rows T)) in  (* tableau[:-1, p] *)
  let steps := step_list xb minusd m in
  q <- argmin steps ;;
  let step := nth q steps infinity in
  if eqb step infinity then ret UnboundedDir   (* The tableau is unbounded *)
  else ret (Pivot p q).

Definition simplexTableau (T : ndarray) : result decision :=
  e <- entering_column T ;;
  match e with
  | None => ret Optimal                        (* The tableau is optimal *)
  | Some p => ratio_test T p
  end.

(** The heap of arrays during [pivoting], as above. *)
Definition heap : Type := list ndarray.

Definition deref (h : heap) (l : loc) : ndarray := nth l h (Array 0 []).

Definition alloc (h : heap) (A : ndarray) : heap * loc := (h ++ [A], length h).

(** [A[i, :] = r] on the array at location [l]. *)
Definition store_row (h : heap) (l : loc) (i : nat) (r : row) : heap :=
  set_nth l (Array (ncols (deref h l)) (set_nth i r (rows (deref h l)))) h.

(** [np.empty((m, n))] *)
Definition np_empty (junk : nat -> nat -> float) (m n : nat) : ndarray :=
  Array n (map (fun i => map (junk i) (seq 0 n)) (seq 0 m)).

(** The source writes [tableau[i][p] * thepivotrow / thepivot]: the product
    first, then the quotient, each rounded. *)
Definition pivoting_on (junk : nat -> nat -> float) (h : heap) (t : loc) (p q : Z)
  : result (heap * loc) :=
  let m := nrows (deref h t) in
  let n := ncols (deref h t) in
  if (q >=? Z.of_nat m)%Z then raise (PivotException RowOutOfRange)
  else if (p >=? Z.of_nat n)%Z then raise (PivotException ColumnOutOfRange)
  else
    match index m q, index n p with
    | Some qi, Some pi =>
        let thepivot := get (deref h t) qi pi in
        if ltb (abs thepivot) eps then raise (PivotException PivotTooSmall)
        else
          let '(h1, newtableau) := alloc h (np_empty junk m n) in
          let h2 :=
            store_row h1 newtableau qi
              (map (fun x => div x thepivot) (get_row (deref h1 t) qi)) in
          let h3 :=
            fold_left
              (fun hh i =>
                 store_row hh newtableau i
                   (map2 (fun a b => sub a (div (mul (get (deref hh t) i pi) b) thepivot))
                         (get_row (deref hh t) i)
                         (get_row (deref hh t) qi)))
              (other_rows m q) h2 in
          ret (h3, newtableau)
    | _, _ => raise IndexError
    end.

Definition pivoting (T : ndarray) (p q : Z) : result ndarray :=
  r <- pivoting_on (fun _ _ => 0%float) [T] 0 p q ;;
  ret (deref (fst r) (snd r)).

Fixpoint simplexAlgorithmTableau (fuel : nat) (T : ndarray)
  : option (result (ndarray * status)) :=
  match fuel with
  | O => None
  | S fuel' =>
      match simplexTableau T with
      | inl e => Some (raise e)
      | inr Optimal => Some (ret (T, StatusOptimal))
      | inr UnboundedDir => Some (ret (T, StatusUnbounded))
      | inr (Pivot colPivot rowPivot) =>
          match pivoting T (Z.of_nat colPivot) (Z.of_nat rowPivot) with
          | inl e => Some (raise e)
          | inr T' => simplexAlgorithmTableau fuel' T'
          end
      end
  end.

(** The value of the loop variable [tableau] when iteration [k] starts. *)
Fixpoint tableau_at (k : nat) (T : ndarray) : option ndarray :=
  match k with
  | O => Some T
  | S k' =>
      match simplexTableau T with
      | inr (Pivot colPivot rowPivot) =>
          match pivoting T (Z.of_nat colPivot) (Z.of_nat rowPivot) with
          | inr T' => tableau_at k' T'
          | inl _ => None
          end
      | _ => None
      end
  end.

(** *** The vocabulary of the statements

    An order of binary64 is stated by its test: [ltb x y = true] is
    [x < y], [leb x y = true] is [x <= y], [eqb x y = true] is [x == y];
    each is [false] when [x] or [y] is NaN. *)

Definition m_of (T : ndarray) : nat := nrows T - 1.
Definition n_of (T : ndarray) : nat := ncols T - 1.

Definition well_formed (T : ndarray) : Prop :=
  2 <= nrows T /\ 2 <= ncols T /\ rectangular T.

Definition cost (T : ndarray) (j : nat) : float := get T (m_of T) j.

(** [p] is the first column, from the left, with a negative reduced cost. *)
Definition first_negative (T : ndarray) (p : nat) : Prop :=
  p < n_of T /\ ltb (cost T p) 0%float = true /\
  forall j, j < p -> ltb (cost T j) 0%float = false.

(** The quotient that the ratio test computes for row [i], rounded. *)
Definition ratio (T : ndarray) (p i : nat) : float :=
  div (get T i (n_of T)) (get T i p).

(** [steps[i]] *)
Definition step (T : ndarray) (p i : nat) : float :=
  if ltb 0 (get T i p) then ratio T p i else infinity.

(** [r] is the first position of [l] that holds a NaN. *)
Definition first_nan (l : nat -> float) (len r : nat) : Prop :=
  r < len /\ is_nan (l r) = true /\ forall j, j < r -> is_nan (l j) = false.

(** [r] is the first position of [l] that holds the least value; [l] holds
    no NaN then. *)
Definition first_min (l : nat -> float) (len r : nat) : Prop :=
  r < len /\
  (forall j, j < len -> leb (l r) (l j) = true) /\
  (forall j, j < r -> ltb (l r) (l j) = true).

(** The row that leaves the basis for the column [p]: it has a positive
    entry in column [p] and a computed quotient other than [inf]; it is the
    first row whose quotient is NaN when there is one, and otherwise the
    first row that attains the least computed quotient among the rows with
    a positive entry in column [p]. *)
Definition leaving_row (T : ndarray) (p q : nat) : Prop :=
  q < m_of T /\ ltb 0 (get T q p) = true /\ eqb (ratio T p q) infinity = false /\
  ((is_nan (ratio T p q) = true /\
    forall i, i < q -> ltb 0 (get T i p) = true -> is_nan (ratio T p i) = false) \/
   ((forall i, i < m_of T -> ltb 0 (get T i p) = true ->
               leb (ratio T p q) (ratio T p i) = true) /\
    (forall i, i < q -> ltb 0 (get T i p) = true ->
               ltb (ratio T p q) (ratio T p i) = true))).

(** What [pivoting] returns when its three checks pass, in closed form,
    with the operations in the order of the source. *)
Definition pivoted (T : ndarray) (pi qi : nat) (q : Z) : ndarray :=
  Array (ncols T)
    (map (fun i =>
            if (Z.of_nat i =? q)%Z
            then map (fun x => div x (get T qi pi)) (get_row T i)
            else map2 (fun a b => sub a (div (mul (get T i pi) b) (get T qi pi)))
                      (get_row T i) (get_row T qi))
         (seq 0 (nrows T))).

(** The value of a finite float, as a rational. *)
Definition exact (x : float) : option Q :=
  match FloatOps.Prim2SF x with
  | SpecFloat.S754_zero _ => Some 0%Q
  | SpecFloat.S754_finite s m e =>
      Some (inject_Z (if s then Z.neg m else Z.pos m) * (2 ^ e))%Q
  | _ => None
  end.

Definition finite (x : float) : bool :=
  match exact x with
  | Some _ => true
  | None => false
  end.

Definition all_finite (T : ndarray) : bool :=
  forallb (forallb finite) (rows T).

(** *** Tableaux for the statements *)

(** The examples of the notebooks. *)
Definition T1 : ndarray :=
  of_rows [[1; 2; 2; 1; 0; 0; 20]; [2; 1; 2; 0; 1; 0; 20]; [2; 2; 1; 0; 0; 1; 20];
           [-10; -12; -12; 0; 0; 0; 0]]%float.
Definition T2 : ndarray := of_rows [[1; 0; 1]; [0; -2; -3]]%float.
Definition T3 : ndarray :=
  of_rows [[1; -1; 1; 0; 2]; [0; 2; -1; 1; 4]; [0; -3; 2; 0; 4]]%float.

(** A product that overflows: 2 * 2^1023. *)
Definition T_overflow : ndarray :=
  of_rows [[1; 0x1p1023; 0; 1]; [2; 0; 1; 4]; [-2; 0; -1; 0]]%float.

(** Two quotients that differ and round to one float: 1/3, and fl(1/3)
    over 1. *)
Definition T_tie : ndarray :=
  of_rows [[3; 1]; [1; 1 / 3]; [-1; 0]]%float.

(** A quotient that overflows: 2^1000 / 2^-1000. *)
Definition T_big_ratio : ndarray :=
  of_rows [[0x1p-1000; 0x1p1000]; [-1; 0]]%float.

(** A single row with a negative reduced cost. *)
Definition T_one_row : ndarray := of_rows [[-1; 0]]%float.


End F64.

(** * Properties *)

(** A literal tableau is rectangular, or well-formed, by inspection. *)
Ltac by_inspection :=
  unfold well_formed, rectangular; simpl; repeat constructor.

(** ** Comparisons *)

Lemma Qltb_lt (x y : Q) : Qltb x y = true <-> (x < y)%Q.
Proof.
  unfold Qltb. rewrite Qlt_alt. destruct (Qcompare x y); split; congruence.
Qed.

Lemma Qltb_ge (x y : Q) : Qltb x y = false <-> (y <= x)%Q.
Proof.
  rewrite <- Bool.not_true_iff_false, Qltb_lt. split.
  - apply Qnot_lt_le.
  - intros H H'. exact (Qle_not_lt _ _ H H').
Qed.

(** ** Lists *)

Lemma nth_map_seq {X : Type} (f : nat -> X) (m j : nat) (d : X) :
  j < m -> nth j (map f (seq 0 m)) d = f j.
Proof.
  intros Hj.
  rewrite (nth_indep _ d (f 0)) by (rewrite length_map, length_seq; exact Hj).
  rewrite map_nth, seq_nth by exact Hj. reflexivity.
Qed.

Lemma nth_map_in {X Y : Type} (f : X -> Y) (l : list X) (j : nat) (d : X) (e : Y) :
  j < length l -> nth j (map f l) e = f (nth j l d).
Proof.
  intros Hj.
  rewrite (nth_indep _ e (f d)) by (rewrite length_map; exact Hj).
  apply map_nth.
Qed.

Lemma length_map2 {X Y Z : Type} (f : X -> Y -> Z) (l1 : list X) (l2 : list Y) :
  length (map2 f l1 l2) = Nat.min (length l1) (length l2).
Proof.
  revert l2; induction l1 as [|x l1 IH]; intros [|y l2]; simpl; auto.
Qed.

Lemma nth_map2 {X Y Z : Type} (f : X -> Y -> Z) (l1 : list X) (l2 : list Y)
      (j : nat) (d1 : X) (d2 : Y) (d : Z) :
  j < length l1 -> j < length l2 ->
  nth j (map2 f l1 l2) d = f (nth j l1 d1) (nth j l2 d2).
Proof.
  revert l2 j; induction l1 as [|x l1 IH]; intros [|y l2] [|j]; simpl; intros H1 H2;
    try lia; auto.
  apply IH; lia.
Qed.

Lemma length_set_nth {X : Type} (i : nat) (x : X) (l : list X) :
  length (set_nth i x l) = length l.
Proof.
  revert i; induction l as [|y l IH]; intros [|i]; simpl; auto.
Qed.

Lemma nth_set_nth_eq {X : Type} (i : nat) (x : X) (l : list X) (d : X) :
  i < length l -> nth i (set_nth i x l) d = x.
Proof.
  revert i; induction l as [|y l IH]; intros [|i]; simpl; intros H; try lia; auto.
  apply IH; lia.
Qed.

Lemma nth_set_nth_neq {X : Type} (i j : nat) (x : X) (l : list X) (d : X) :
  j <> i -> nth j (set_nth i x l) d = nth j l d.
Proof.
  revert i j; induction l as [|y l IH]; intros [|i] [|j]; simpl; intros H;
    try congruence; auto.
Qed.

Lemma set_nth_app_last {X : Type} (h : list X) (a b : X) :
  set_nth (length h) b (h ++ [a]) = h ++ [b].
Proof.
  induction h as [|y h IH]; simpl; [reflexivity | now rewrite IH].
Qed.

Lemma last_nth {X : Type} (l : list X) (d : X) :
  last l d = nth (length l - 1) l d.
Proof.
  induction l as [|x l IH]; [reflexivity|].
  destruct l as [|y l]; [reflexivity|].
  change (last (x :: y :: l) d) with (last (y :: l) d).
  rewrite IH. simpl. now rewrite Nat.sub_0_r.
Qed.

Lemma nth_removelast {X : Type} (l : list X) (j : nat) (d : X) :
  j < length l - 1 -> nth j (removelast l) d = nth j l d.
Proof.
  revert j; induction l as [|x l IH]; intros j Hj; [reflexivity|].
  destruct l as [|y l]; [simpl in Hj; lia|].
  change (removelast (x :: y :: l)) with (x :: removelast (y :: l)).
  destruct j as [|j]; [reflexivity|].
  simpl nth at 1. rewrite IH by (simpl in *; lia). reflexivity.
Qed.

Lemma length_removelast {X : Type} (l : list X) :
  length (removelast l) = length l - 1.
Proof.
  induction l as [|x l IH]; [reflexivity|].
  destruct l as [|y l]; [reflexivity|].
  change (removelast (x :: y :: l)) with (x :: removelast (y :: l)).
  simpl length in *. rewrite IH. lia.
Qed.

Lemma Forall2_nth_iff {X Y : Type} (R : X -> Y -> Prop) (l1 : list X) (l2 : list Y)
      (d1 : X) (d2 : Y) :
  Forall2 R l1 l2 <->
  length l1 = length l2 /\ forall i, i < length l1 -> R (nth i l1 d1) (nth i l2 d2).
Proof.
  split.
  - induction 1 as [|x y l1 l2 Hxy H IH]; simpl.
    + split; [reflexivity | intros i Hi; lia].
    + destruct IH as [Hlen Hnth]. split; [congruence|].
      intros [|i] Hi; [exact Hxy | apply Hnth; lia].
  - revert l2; induction l1 as [|x l1 IH]; intros [|y l2] [Hlen Hnth];
      simpl in Hlen; try discriminate; constructor.
    + apply (Hnth 0); simpl; lia.
    + apply IH. split; [congruence|].
      intros i Hi. apply (Hnth (S i)); simpl; lia.
Qed.

(** ** The scan of [np.argmax] and [np.argmin] *)

Section ArgScan.
Variable X : Type.
Variable better : X -> X -> bool.
Variable d : X.

Hypothesis better_irrefl : forall x, better x x = false.
Hypothesis better_trans :
  forall x y z, better x y = true -> better y z = true -> better x z = true.
Hypothesis better_cotrans :
  forall x y z, better x z = true -> better x y = true \/ better y z = true.

Lemma arg_scan_first_best (l pre : list X) (bi : nat) :
  pre <> [] ->
  first_best better d pre bi ->
  first_best better d (pre ++ l) (arg_scan better l (length pre) bi (nth bi pre d)).
Proof.
  revert pre bi; induction l as [|x l IH]; intros pre bi Hne (Hbi & Hmin & Hfst).
  - simpl. rewrite app_nil_r. repeat split; assumption.
  - simpl.
    assert (Hlen : length (pre ++ [x]) = S (length pre))
      by (rewrite length_app; simpl; lia).
    assert (Hx : nth (length pre) (pre ++ [x]) d = x)
      by (rewrite app_nth2, Nat.sub_diag by lia; reflexivity).
    assert (Hne' : pre ++ [x] <> []) by (destruct pre; discriminate).
    replace (pre ++ x :: l) with ((pre ++ [x]) ++ l)
      by (rewrite <- app_assoc; reflexivity).
    destruct (better x (nth bi pre d)) eqn:Hb.
    + specialize (IH (pre ++ [x]) (length pre) Hne').
      rewrite Hlen, Hx in IH. apply IH. unfold first_best.
      rewrite Hlen, Hx. repeat split; [lia | |].
      * intros j Hj. destruct (Nat.eq_dec j (length pre)) as [->|Hjn].
        -- rewrite Hx. apply better_irrefl.
        -- rewrite app_nth1 by lia.
           destruct (better (nth j pre d) x) eqn:Hjx; [|reflexivity].
           rewrite <- (Hmin j ltac:(lia)). symmetry.
           apply (better_trans _ _ _ Hjx Hb).
      * intros j Hj. rewrite app_nth1 by lia.
        destruct (better_cotrans _ (nth j pre d) _ Hb) as [H|H]; [exact H|].
        rewrite (Hmin j Hj) in H. discriminate.
    + specialize (IH (pre ++ [x]) bi Hne').
      rewrite Hlen in IH. rewrite (app_nth1 pre [x] d Hbi) in IH.
      apply IH. unfold first_best. rewrite Hlen.
      rewrite (app_nth1 pre [x] d Hbi). repeat split; [lia | |].
      * intros j Hj. destruct (Nat.eq_dec j (length pre)) as [->|Hjn].
        -- rewrite Hx. exact Hb.
        -- rewrite app_nth1 by lia. apply Hmin; lia.
      * intros j Hj. rewrite app_nth1 by lia. apply Hfst; exact Hj.
Qed.

Lemma arg_first_first_best (l : list X) :
  l <> [] -> exists r, arg_first better l = inr r /\ first_best better d l r.
Proof.
  destruct l as [|x l]; [congruence|]. intros _.
  eexists; split; [reflexivity|].
  apply (arg_scan_first_best l [x] 0); [discriminate|].
  unfold first_best; simpl. repeat split; [lia | | intros j Hj; lia].
  intros [|j] Hj; [apply better_irrefl | lia].
Qed.

End ArgScan.

Lemma argmax_first_true (l : list bool) :
  any l = true ->
  exists p, argmax l = inr p /\ p < length l /\ nth p l false = true /\
            forall j, j < p -> nth j l false = false.
Proof.
  intros Hany.
  assert (Hne : l <> []) by (intros ->; discriminate).
  destruct (arg_first_first_best bool (fun x best => bool_ltb best x) false) with (l := l)
    as (r & Hr & Hlt & Hmin & Hfst); try assumption.
  - intros []; reflexivity.
  - intros [] [] []; cbv; intros; congruence.
  - intros [] [] []; cbv; auto.
  - exists r. split; [exact Hr|]. split; [exact Hlt|].
    apply existsb_exists in Hany. destruct Hany as (b & Hin & ->).
    destruct (In_nth _ _ false Hin) as (j & Hj & Hnj).
    assert (Hrt : nth r l false = true).
    { specialize (Hmin j Hj). rewrite Hnj in Hmin.
      destruct (nth r l false); [reflexivity | discriminate]. }
    split; [exact Hrt|].
    intros i Hi. specialize (Hfst i Hi). rewrite Hrt in Hfst.
    destruct (nth i l false); [discriminate | reflexivity].
Qed.

Lemma any_false_nth (l : list bool) (j : nat) :
  any l = false -> nth j l false = false.
Proof.
  intros Hany. destruct (nth j l false) eqn:Hn; [|reflexivity].
  rewrite <- Hany. symmetry. apply existsb_exists. exists true. split; [|reflexivity].
  rewrite <- Hn. apply nth_In.
  destruct (Nat.lt_ge_cases j (length l)) as [H|H]; [exact H|].
  rewrite nth_overflow in Hn by exact H. discriminate.
Qed.

Lemma ext_ltb_irrefl (x : ext) : ext_ltb x x = false.
Proof. destruct x; simpl; [apply Qltb_ge, Qle_refl | reflexivity]. Qed.

Lemma ext_ltb_trans (x y z : ext) :
  ext_ltb x y = true -> ext_ltb y z = true -> ext_ltb x z = true.
Proof.
  destruct x, y, z; simpl; try congruence.
  rewrite !Qltb_lt. apply Qlt_trans.
Qed.

Lemma ext_ltb_cotrans (x y z : ext) :
  ext_ltb x z = true -> ext_ltb x y = true \/ ext_ltb y z = true.
Proof.
  destruct x as [x|], y as [y|], z as [z|]; simpl; auto.
  rewrite !Qltb_lt. intros H.
  destruct (Qlt_le_dec x y) as [Hxy|Hyx]; [left; exact Hxy | right].
  apply (Qle_lt_trans _ _ _ Hyx H).
Qed.

(** ** Reading a tableau *)

Lemma rectangular_row (T : tableau) (i : nat) :
  rectangular T -> i < nrows T -> length (get_row T i) = ncols T.
Proof.
  intros Hrect Hi. unfold rectangular in Hrect. rewrite Forall_forall in Hrect.
  apply Hrect. apply nth_In. exact Hi.
Qed.

Lemma last_row (T : tableau) : last T [] = get_row T (m_of T).
Proof. apply last_nth. Qed.

(** ** The entering column *)

Lemma entering_column_cases (T : tableau) :
  T <> [] ->
  let k := length (get_row T (m_of T)) - 1 in
  ((forall j, j < k -> (0 <= cost T j)%Q) /\ entering_column T = inr None) \/
  (exists p, p < k /\ (cost T p < 0)%Q /\ (forall j, j < p -> (0 <= cost T j)%Q) /\
             entering_column T = inr (Some p)).
Proof.
  intros Hne k. unfold entering_column, reduced_costs.
  destruct T as [|r0 T0]; [congruence|]. set (T := r0 :: T0) in *.
  cbn [bind ret]. rewrite last_row.
  set (rc := removelast (get_row T (m_of T))).
  assert (Hlen : length rc = k) by apply length_removelast.
  assert (Hcost : forall j, j < k ->
            nth j (map (fun c => Qltb c 0%Q) rc) false = Qltb (cost T j) 0%Q).
  { intros j Hj. rewrite (nth_map_in _ _ _ 0%Q) by lia.
    unfold rc. rewrite nth_removelast by exact Hj. reflexivity. }
  destruct (any (map (fun c => Qltb c 0%Q) rc)) eqn:Hany; cbn [negb].
  - right. destruct (argmax_first_true _ Hany) as (p & Hp & Hlt & Htrue & Hfst).
    rewrite length_map, Hlen in Hlt.
    exists p. split; [exact Hlt|]. split.
    + apply Qltb_lt. rewrite <- Hcost by exact Hlt. exact Htrue.
    + split.
      * intros j Hj. apply Qltb_ge. rewrite <- Hcost by lia. apply Hfst, Hj.
      * rewrite Hp. reflexivity.
  - left. split; [|reflexivity].
    intros j Hj. apply Qltb_ge. rewrite <- Hcost by exact Hj.
    apply any_false_nth, Hany.
Qed.

Lemma entering_column_rect (T : tableau) :
  rectangular T -> 1 <= nrows T ->
  ((forall j, j < n_of T -> (0 <= cost T j)%Q) /\ entering_column T = inr None) \/
  (exists p, first_negative T p /\ entering_column T = inr (Some p)).
Proof.
  intros Hrect Hrows.
  assert (Hne : T <> []) by (intros ->; simpl in Hrows; lia).
  pose proof (entering_column_cases T Hne) as H. cbv zeta in H.
  rewrite rectangular_row in H by (assumption || unfold m_of; lia).
  fold (n_of T) in H.
  destruct H as [H | (p & Hp & Hneg & Hfst & He)]; [left; exact H | right].
  exists p. split; [|exact He]. repeat split; assumption.
Qed.


Lemma first_negative_unique (T : tableau) (p p' : nat) :
  first_negative T p -> first_negative T p' -> p = p'.
Proof.
  intros (_ & Hn & Hf) (_ & Hn' & Hf').
  destruct (Nat.lt_trichotomy p p') as [H|[H|H]]; [|exact H|].
  - exfalso. apply (Qlt_not_le _ _ Hn), Hf', H.
  - exfalso. apply (Qlt_not_le _ _ Hn'), Hf, H.
Qed.

(** ** The ratio test *)

Lemma step_list_nth (T : tableau) (p k : nat) :
  rectangular T -> k < m_of T ->
  nth k (step_list (map (fun r => last r 0%Q) (removelast T))
                   (map (fun r => nth p r 0%Q) (removelast T)) (nrows T - 1)) PInf
  = if Qltb 0 (get T k p) then Fin (ratio T p k) else PInf.
Proof.
  intros Hrect Hk. unfold step_list. fold (m_of T).
  rewrite nth_map_seq by exact Hk.
  assert (Hk' : k < length (removelast T))
    by (rewrite length_removelast; exact Hk).
  rewrite !(nth_map_in _ _ _ []) by exact Hk'.
  rewrite nth_removelast by exact Hk.
  rewrite last_nth. change (nth k T []) with (get_row T k).
  rewrite rectangular_row by (assumption || (unfold m_of in Hk; lia)).
  reflexivity.
Qed.

Lemma ratio_test_no_rows (T : tableau) (p : nat) :
  m_of T = 0 -> ratio_test T p = inl ValueError.
Proof.
  intros Hm. unfold ratio_test. unfold m_of in Hm. rewrite Hm. reflexivity.
Qed.

Lemma ratio_test_cases (T : tableau) (p : nat) :
  rectangular T -> 1 <= m_of T ->
  (ratio_test T p = inr UnboundedDir /\
   forall i, i < m_of T -> (get T i p <= 0)%Q) \/
  (exists q, ratio_test T p = inr (Pivot p q) /\ min_ratio_row T p q).
Proof.
  intros Hrect Hm. unfold ratio_test.
  set (steps := step_list _ _ _).
  assert (Hlen : length steps = m_of T)
    by (unfold steps, step_list; rewrite length_map, length_seq; reflexivity).
  assert (Hnth : forall k, k < m_of T ->
            nth k steps PInf = if Qltb 0 (get T k p) then Fin (ratio T p k) else PInf)
    by (intros k Hk; apply step_list_nth; assumption).
  assert (Hne : steps <> [])
    by (intros E; rewrite E in Hlen; simpl in Hlen; lia).
  destruct (arg_first_first_best ext ext_ltb PInf ext_ltb_irrefl ext_ltb_trans
              ext_ltb_cotrans steps Hne) as (q & Hq & Hlt & Hmin & Hfst).
  unfold argmin. rewrite Hq. cbn [bind]. rewrite Hlen in Hlt, Hmin.
  rewrite (Hnth q Hlt) in *.
  destruct (Qltb 0 (get T q p)) eqn:Hpos; cbn [is_inf].
  - right. exists q. split; [reflexivity|].
    apply Qltb_lt in Hpos. repeat split; try assumption.
    + intros i Hi Hip. specialize (Hmin i Hi). rewrite (Hnth i Hi) in Hmin.
      apply Qltb_lt in Hip. rewrite Hip in Hmin. simpl in Hmin.
      apply Qltb_ge. exact Hmin.
    + intros i Hi Hip. specialize (Hfst i Hi). rewrite (Hnth i) in Hfst by lia.
      apply Qltb_lt in Hip. rewrite Hip in Hfst. simpl in Hfst.
      apply Qltb_lt. exact Hfst.
  - left. split; [reflexivity|].
    intros i Hi. specialize (Hmin i Hi). rewrite (Hnth i Hi) in Hmin.
    destruct (Qltb 0 (get T i p)) eqn:Hip; [discriminate|].
    apply Qltb_ge. exact Hip.
Qed.

(** ** The heap during [pivoting] *)

Lemma deref_app_old (h : heap) (N : tableau) (l : loc) :
  l < length h -> deref (h ++ [N]) l = deref h l.
Proof. intros Hl. unfold deref. apply app_nth1, Hl. Qed.

Lemma deref_app_new (h : heap) (N : tableau) :
  deref (h ++ [N]) (length h) = N.
Proof. unfold deref. rewrite app_nth2, Nat.sub_diag by lia. reflexivity. Qed.

Lemma store_row_new (h : heap) (N : tableau) (i : nat) (r : row) :
  store_row (h ++ [N]) (length h) i r = h ++ [set_nth i r N].
Proof. unfold store_row. rewrite deref_app_new. apply set_nth_app_last. Qed.

(** The loop writes the new array only, and reads the old one only. *)
Lemma fold_store_rows (F : tableau -> nat -> row) (h : heap) (t : loc)
      (idxs : list nat) (N : tableau) :
  t < length h ->
  fold_left (fun hh i => store_row hh (length h) i (F (deref hh t) i)) idxs (h ++ [N])
  = h ++ [fold_left (fun N' i => set_nth i (F (deref h t) i) N') idxs N].
Proof.
  intros Ht. revert N. induction idxs as [|i idxs IH]; intros N; simpl.
  - reflexivity.
  - rewrite store_row_new, deref_app_old by exact Ht. apply IH.
Qed.

Section FoldRows.
Variable X : Type.
Variable f : nat -> X.

Lemma fold_rows_length (idxs : list nat) (N : list X) :
  length (fold_left (fun N' i => set_nth i (f i) N') idxs N) = length N.
Proof.
  revert N; induction idxs as [|i idxs IH]; intros N; simpl; [reflexivity|].
  rewrite IH. apply length_set_nth.
Qed.

Lemma fold_rows_out (idxs : list nat) (N : list X) (j : nat) (d : X) :
  ~ In j idxs -> nth j (fold_left (fun N' i => set_nth i (f i) N') idxs N) d = nth j N d.
Proof.
  revert N; induction idxs as [|i idxs IH]; intros N Hj; simpl; [reflexivity|].
  rewrite IH by (intros H; apply Hj; right; exact H).
  apply nth_set_nth_neq. intros ->. apply Hj. left. reflexivity.
Qed.

Lemma fold_rows_in (idxs : list nat) (N : list X) (j : nat) (d : X) :
  In j idxs -> j < length N -> nth j (fold_left (fun N' i => set_nth i (f i) N') idxs N) d = f j.
Proof.
  revert N; induction idxs as [|i idxs IH]; intros N Hj Hlen; simpl; [destruct Hj|].
  destruct (in_dec Nat.eq_dec j idxs) as [Hin|Hout].
  - apply IH; [exact Hin | rewrite length_set_nth; exact Hlen].
  - destruct Hj as [->|Hin]; [|contradiction].
    rewrite fold_rows_out by exact Hout.
    apply nth_set_nth_eq, Hlen.
Qed.
End FoldRows.

Lemma length_np_empty (junk : nat -> nat -> Q) (m n : nat) :
  length (np_empty junk m n) = m.
Proof. unfold np_empty. now rewrite length_map, length_seq. Qed.

Lemma in_other_rows (m : nat) (q : Z) (i : nat) :
  In i (other_rows m q) <-> i < m /\ Z.of_nat i <> q.
Proof.
  unfold other_rows. rewrite filter_In, in_seq, Bool.negb_true_iff, Z.eqb_neq.
  intuition lia.
Qed.

Lemma index_inv (len : nat) (i : Z) (k : nat) :
  index len i = Some k ->
  k < len /\ ((0 <= i)%Z /\ Z.of_nat k = i \/ (i < 0)%Z /\ Z.of_nat k = (i + Z.of_nat len)%Z).
Proof.
  unfold index.
  destruct (Z.leb_spec 0 i); [destruct (Z.ltb_spec i (Z.of_nat len)) |
                               destruct (Z.leb_spec (- Z.of_nat len) i)];
    intros E; inversion E; subst; lia.
Qed.

(** The rows written by [pivoting], whatever [np.empty] returned. *)
Lemma pivoting_rows (junk : nat -> nat -> Q) (T : tableau) (p q : Z) (pi qi : nat) :
  index (nrows T) q = Some qi ->
  fold_left
    (fun N i => set_nth i
       (map2 (fun a b => a - get T i pi * b / get T qi pi)%Q (get_row T i) (get_row T qi)) N)
    (other_rows (nrows T) q)
    (set_nth qi (map (fun x => x / get T qi pi)%Q (get_row T qi))
             (np_empty junk (nrows T) (ncols T)))
  = pivoted T pi qi q.
Proof.
  intros Hq. destruct (index_inv _ _ _ Hq) as [Hqi Hcase].
  set (f := fun i => map2 (fun a b => a - get T i pi * b / get T qi pi)%Q
                          (get_row T i) (get_row T qi)).
  set (N0 := set_nth qi _ _).
  assert (HN0 : length N0 = nrows T)
    by (unfold N0; rewrite length_set_nth; apply length_np_empty).
  apply (nth_ext _ _ [] []).
  - rewrite (fold_rows_length _ f), HN0. unfold pivoted.
    now rewrite length_map, length_seq.
  - intros j Hj. rewrite (fold_rows_length _ f), HN0 in Hj.
    unfold pivoted. rewrite nth_map_seq by exact Hj.
    destruct (Z.eqb_spec (Z.of_nat j) q) as [Hjq|Hjq].
    + assert (j = qi) by lia. subst j.
      rewrite (fold_rows_out _ f) by (rewrite in_other_rows; lia).
      unfold N0. apply nth_set_nth_eq. rewrite length_np_empty. exact Hj.
    + rewrite (fold_rows_in _ f); [reflexivity | | lia].
      apply in_other_rows. split; assumption.
Qed.

Lemma pivoting_on_closed (junk : nat -> nat -> Q) (h : heap) (t : loc) (p q : Z) :
  t < length h ->
  let T := deref h t in
  pivoting_on junk h t p q =
  if (q >=? Z.of_nat (nrows T))%Z then raise (PivotException RowOutOfRange)
  else if (p >=? Z.of_nat (ncols T))%Z then raise (PivotException ColumnOutOfRange)
  else
    match index (nrows T) q, index (ncols T) p with
    | Some qi, Some pi =>
        if Qltb (Qabs (get T qi pi)) eps then raise (PivotException PivotTooSmall)
        else ret (h ++ [pivoted T pi qi q], length h)
    | _, _ => raise IndexError
    end.
Proof.
  intros Ht T. unfold pivoting_on. fold T.
  destruct (q >=? Z.of_nat (nrows T))%Z; [reflexivity|].
  destruct (p >=? Z.of_nat (ncols T))%Z; [reflexivity|].
  destruct (index (nrows T) q) as [qi|] eqn:Hq; [|reflexivity].
  destruct (index (ncols T) p) as [pi|]; [|reflexivity].
  destruct (Qltb (Qabs (get T qi pi)) eps); [reflexivity|].
  unfold alloc. rewrite store_row_new, deref_app_old by exact Ht. fold T.
  rewrite (fold_store_rows
             (fun A i => map2 (fun a b => a - get A i pi * b / get T qi pi)%Q
                              (get_row A i) (get_row A qi)))
    by exact Ht.
  cbv beta. fold T.
  apply (f_equal (fun R : tableau => ret (h ++ [R], length h))).
  exact (pivoting_rows junk T p q pi qi Hq).
Qed.

Lemma pivoting_closed (T : tableau) (p q : Z) :
  pivoting T p q =
  if (q >=? Z.of_nat (nrows T))%Z then raise (PivotException RowOutOfRange)
  else if (p >=? Z.of_nat (ncols T))%Z then raise (PivotException ColumnOutOfRange)
  else
    match index (nrows T) q, index (ncols T) p with
    | Some qi, Some pi =>
        if Qltb (Qabs (get T qi pi)) eps then raise (PivotException PivotTooSmall)
        else ret (pivoted T pi qi q)
    | _, _ => raise IndexError
    end.
Proof.
  unfold pivoting. rewrite pivoting_on_closed by (simpl; lia).
  change (deref [T] 0) with T.
  destruct (q >=? Z.of_nat (nrows T))%Z; [reflexivity|].
  destruct (p >=? Z.of_nat (ncols T))%Z; [reflexivity|].
  destruct (index (nrows T) q) as [qi|]; [|reflexivity].
  destruct (index (ncols T) p) as [pi|]; [|reflexivity].
  destruct (Qltb (Qabs (get T qi pi)) eps); reflexivity.
Qed.

(** ** The pivoted tableau *)

Lemma index_of_nat (len k : nat) :
  k < len -> index len (Z.of_nat k) = Some k.
Proof.
  intros Hk. unfold index.
  destruct (Z.leb_spec 0 (Z.of_nat k)); [|lia].
  destruct (Z.ltb_spec (Z.of_nat k) (Z.of_nat len)); [|lia].
  now rewrite Nat2Z.id.
Qed.

Lemma nrows_pivoted (T : tableau) (pi qi : nat) (q : Z) :
  nrows (pivoted T pi qi q) = nrows T.
Proof. unfold pivoted, nrows. now rewrite length_map, length_seq. Qed.

Lemma get_row_pivoted (T : tableau) (pi qi : nat) (q : Z) (i : nat) :
  i < nrows T ->
  get_row (pivoted T pi qi q) i =
  if (Z.of_nat i =? q)%Z
  then map (fun x => x / get T qi pi)%Q (get_row T i)
  else map2 (fun a b => a - get T i pi * b / get T qi pi)%Q (get_row T i) (get_row T qi).
Proof. intros Hi. unfold get_row at 1, pivoted. now rewrite nth_map_seq. Qed.

Lemma length_row_pivoted (T : tableau) (pi qi : nat) (q : Z) (i : nat) :
  rectangular T -> qi < nrows T -> i < nrows T ->
  length (get_row (pivoted T pi qi q) i) = ncols T.
Proof.
  intros Hrect Hqi Hi. rewrite get_row_pivoted by exact Hi.
  destruct (Z.of_nat i =? q)%Z.
  - rewrite length_map. now apply rectangular_row.
  - rewrite length_map2, !rectangular_row by assumption. apply Nat.min_id.
Qed.

Lemma ncols_row0 (T : tableau) : 1 <= nrows T -> ncols T = length (get_row T 0).
Proof. destruct T; simpl; [lia | reflexivity]. Qed.

Lemma ncols_pivoted (T : tableau) (pi qi : nat) (q : Z) :
  rectangular T -> qi < nrows T -> ncols (pivoted T pi qi q) = ncols T.
Proof.
  intros Hrect Hqi.
  rewrite (ncols_row0 (pivoted T pi qi q)) by (rewrite nrows_pivoted; lia).
  apply length_row_pivoted; (assumption || lia).
Qed.

Lemma rectangular_nth (T : tableau) :
  (forall i, i < nrows T -> length (get_row T i) = ncols T) -> rectangular T.
Proof.
  intros H. unfold rectangular. apply Forall_forall. intros r Hin.
  destruct (In_nth _ _ [] Hin) as (i & Hi & <-). apply H, Hi.
Qed.

Lemma rectangular_pivoted (T : tableau) (pi qi : nat) (q : Z) :
  rectangular T -> qi < nrows T -> rectangular (pivoted T pi qi q).
Proof.
  intros Hrect Hqi. apply rectangular_nth. intros i Hi.
  rewrite nrows_pivoted in Hi.
  rewrite ncols_pivoted by assumption. now apply length_row_pivoted.
Qed.

Lemma get_pivoted_pivot_row (T : tableau) (pi qi j : nat) :
  qi < nrows T -> j < length (get_row T qi) ->
  get (pivoted T pi qi (Z.of_nat qi)) qi j = (get T qi j / get T qi pi)%Q.
Proof.
  intros Hqi Hj. unfold get at 1. rewrite get_row_pivoted by exact Hqi.
  rewrite Z.eqb_refl. rewrite (nth_map_in _ _ _ 0%Q) by exact Hj. reflexivity.
Qed.

Lemma get_pivoted_other_row (T : tableau) (pi qi i j : nat) :
  i < nrows T -> i <> qi ->
  j < length (get_row T i) -> j < length (get_row T qi) ->
  get (pivoted T pi qi (Z.of_nat qi)) i j =
  (get T i j - get T i pi * get T qi j / get T qi pi)%Q.
Proof.
  intros Hi Hne Hj Hj'. unfold get at 1. rewrite get_row_pivoted by exact Hi.
  destruct (Z.eqb_spec (Z.of_nat i) (Z.of_nat qi)) as [E|_]; [lia|].
  rewrite (nth_map2 _ _ _ _ 0%Q 0%Q) by assumption. reflexivity.
Qed.

Lemma eps_pos : (0 < eps)%Q.
Proof. reflexivity. Qed.

Lemma not_small_nonzero (x : Q) : (eps <= Qabs x)%Q -> ~ (x == 0)%Q.
Proof.
  intros H E. rewrite E in H. simpl in H.
  exact (Qle_not_lt _ _ H eps_pos).
Qed.

(** [pivoting] at a position inside the array whose entry is not too
    small. *)
Lemma pivoting_in_range (T : tableau) (p q : nat) :
  q < nrows T -> p < ncols T -> (eps <= Qabs (get T q p))%Q ->
  pivoting T (Z.of_nat p) (Z.of_nat q) = inr (pivoted T p q (Z.of_nat q)).
Proof.
  intros Hq Hp Hbig. rewrite pivoting_closed.
  destruct (Z.geb_spec (Z.of_nat q) (Z.of_nat (nrows T))); [lia|].
  destruct (Z.geb_spec (Z.of_nat p) (Z.of_nat (ncols T))); [lia|].
  rewrite !index_of_nat by assumption.
  apply Qltb_ge in Hbig. rewrite Hbig. reflexivity.
Qed.

Lemma pivoting_too_small (T : tableau) (p q : nat) :
  q < nrows T -> p < ncols T -> (Qabs (get T q p) < eps)%Q ->
  pivoting T (Z.of_nat p) (Z.of_nat q) = inl (PivotException PivotTooSmall).
Proof.
  intros Hq Hp Hsmall. rewrite pivoting_closed.
  destruct (Z.geb_spec (Z.of_nat q) (Z.of_nat (nrows T))); [lia|].
  destruct (Z.geb_spec (Z.of_nat p) (Z.of_nat (ncols T))); [lia|].
  rewrite !index_of_nat by assumption.
  apply Qltb_lt in Hsmall. rewrite Hsmall. reflexivity.
Qed.

(** A tableau that [pivoting] returns has the shape of its argument. *)
Lemma pivoting_shape (T T' : tableau) (p q : Z) :
  rectangular T -> pivoting T p q = inr T' ->
  nrows T' = nrows T /\ ncols T' = ncols T /\ rectangular T'.
Proof.
  intros Hrect. rewrite pivoting_closed.
  destruct (q >=? Z.of_nat (nrows T))%Z; [discriminate|].
  destruct (p >=? Z.of_nat (ncols T))%Z; [discriminate|].
  destruct (index (nrows T) q) as [qi|] eqn:Hq; [|discriminate].
  destruct (index (ncols T) p) as [pi|]; [|discriminate].
  destruct (Qltb (Qabs (get T qi pi)) eps); [discriminate|].
  intros E. injection E as <-. apply index_inv in Hq. destruct Hq as [Hq _].
  split; [apply nrows_pivoted|].
  split; [now apply ncols_pivoted | now apply rectangular_pivoted].
Qed.


(** ** What [simplexTableau] returns *)

Lemma simplexTableau_entering (T : tableau) (p : nat) :
  entering_column T = inr (Some p) -> simplexTableau T = ratio_test T p.
Proof. intros H. unfold simplexTableau. rewrite H. reflexivity. Qed.

Lemma ratio_test_not_optimal (T : tableau) (p : nat) :
  ratio_test T p <> inr Optimal.
Proof.
  unfold ratio_test. destruct (argmin _) as [e|q]; cbn [bind]; [discriminate|].
  destruct (is_inf _); discriminate.
Qed.

Lemma simplexTableau_optimal (T : tableau) :
  simplexTableau T = inr Optimal <-> entering_column T = inr None.
Proof.
  unfold simplexTableau. destruct (entering_column T) as [e|[p|]]; cbn [bind].
  - split; discriminate.
  - split; [intros H; now apply ratio_test_not_optimal in H | discriminate].
  - split; reflexivity.
Qed.




(** ** The loop *)


(** More fuel does not change an answer. *)
Lemma simplexAlgorithmTableau_more_fuel (fuel fuel' : nat) (T : tableau)
      (r : result (tableau * status)) :
  simplexAlgorithmTableau fuel T = Some r -> fuel <= fuel' ->
  simplexAlgorithmTableau fuel' T = Some r.
Proof.
  revert fuel' T; induction fuel as [|fuel IH]; intros fuel' T; simpl; [discriminate|].
  intros H Hle. destruct fuel' as [|fuel']; [lia|]. simpl.
  destruct (simplexTableau T) as [e|[| |p q]]; try exact H.
  destruct (pivoting T (Z.of_nat p) (Z.of_nat q)) as [e|T1']; [exact H|].
  apply IH; [exact H | lia].
Qed.

(** C2.  On a well-formed tableau with a negative reduced cost, the column
    that enters is the smallest [j < n] with [tableau[m][j] < 0], and the
    answer is the ratio test of that column.  It is the first negative
    cost, not the most negative: on [T1] column 0 enters although column 1
    has a smaller cost.  The test is [< 0] itself: a cost of -2^-60
    enters. *)
Theorem C2_first_negative_enters :
  (forall T : tableau,
      well_formed T ->
      (exists j, j < n_of T /\ (cost T j < 0)%Q) ->
      exists p, entering_column T = inr (Some p) /\ first_negative T p /\
                simplexTableau T = ratio_test T p) /\
  (entering_column T1 = inr (Some 0) /\ (cost T1 1 < cost T1 0)%Q) /\
  entering_column T_tiny_cost = inr (Some 0).
Proof.
  split; [|split; [split|]; reflexivity].
  intros T (Hr & Hc & Hrect) (j & Hj & Hneg).
  destruct (entering_column_rect T Hrect) as [[Hall _] | (p & Hfn & He)]; [lia | |].
  - exfalso. exact (Qlt_not_le _ _ Hneg (Hall j Hj)).
  - exists p. split; [exact He|]. split; [exact Hfn|].
    now apply simplexTableau_entering.
Qed.

Lemma C2_first_negative_enters_witness :
  well_formed T3 /\ (exists j, j < n_of T3 /\ (cost T3 j < 0)%Q) /\
  exists p, entering_column T3 = inr (Some p) /\ first_negative T3 p /\
            simplexTableau T3 = ratio_test T3 p.
Proof.
  assert (Hwf : well_formed T3) by by_inspection.
  assert (Hneg : exists j, j < n_of T3 /\ (cost T3 j < 0)%Q).
  { exists 1. split; [vm_compute; lia | reflexivity]. }
  split; [exact Hwf|]. split; [exact Hneg|].
  exact (proj1 C2_first_negative_enters T3 Hwf Hneg).
Defined.

Lemma index_none (len : nat) (i : Z) :
  index len i = None <-> (Z.of_nat len <= i)%Z \/ (i < - Z.of_nat len)%Z.
Proof.
  unfold index.
  destruct (Z.leb_spec 0 i); [destruct (Z.ltb_spec i (Z.of_nat len)) |
                               destruct (Z.leb_spec (- Z.of_nat len) i)];
    split; intros E; try discriminate; try reflexivity; lia.
Qed.

(** C6 as it is written fails: row 1 of [T2] is the row of the reduced
    costs, outside the constraint rows, and [pivoting] pivots there. *)
Lemma C6_counterexample :
  ~ ((exists f, pivoting T2 1 1 = inl (PivotException f)) <->
     (~ (0 <= 1 < Z.of_nat (m_of T2))%Z \/ ~ (0 <= 1 < Z.of_nat (n_of T2))%Z \/
      (Qabs (get T2 1 1) < eps)%Q)).
Proof.
  intros [_ H]. destruct H as [f Hf].
  - left. simpl. lia.
  - vm_compute in Hf. discriminate.
Qed.

(** The three ways a call of [pivoting] ends, for integer indices of
    either sign: one of its own exceptions, [IndexError] for an index
    below minus the length, or a return. *)
Lemma pivoting_outcome (T : tableau) (p q : Z) :
  ((exists f, pivoting T p q = inl (PivotException f)) <->
   ((Z.of_nat (nrows T) <= q)%Z \/ (Z.of_nat (ncols T) <= p)%Z \/
    exists qi pi, index (nrows T) q = Some qi /\ index (ncols T) p = Some pi /\
                  (Qabs (get T qi pi) < eps)%Q)) /\
  (pivoting T p q = inl IndexError <->
   ((q < Z.of_nat (nrows T))%Z /\ (p < Z.of_nat (ncols T))%Z /\
    ((q < - Z.of_nat (nrows T))%Z \/ (p < - Z.of_nat (ncols T))%Z))) /\
  (pivoting T p q <> inl ValueError).
Proof.
  rewrite pivoting_closed.
  destruct (Z.geb_spec q (Z.of_nat (nrows T))) as [Hq|Hq].
  { split; [split; [intros _; left; lia | intros _; eexists; reflexivity]|].
    split; [split; [discriminate | lia] | discriminate]. }
  destruct (Z.geb_spec p (Z.of_nat (ncols T))) as [Hp|Hp].
  { split; [split; [intros _; right; left; lia | intros _; eexists; reflexivity]|].
    split; [split; [discriminate | lia] | discriminate]. }
  destruct (index (nrows T) q) as [qi|] eqn:Hqi.
  - destruct (index (ncols T) p) as [pi|] eqn:Hpi.
    + destruct (Qltb (Qabs (get T qi pi)) eps) eqn:Hsmall.
      * split; [split; [|intros _; eexists; reflexivity]|].
        -- intros _. right; right. exists qi, pi. rewrite <- Qltb_lt. auto.
        -- apply index_inv in Hqi, Hpi.
           split; [split; [discriminate | lia] | discriminate].
      * split; [split|].
        -- intros [f Hf]. discriminate.
        -- intros [H|[H|(qi' & pi' & E1 & E2 & H)]]; [lia | lia |].
           injection E1 as <-. injection E2 as <-.
           apply Qltb_lt in H. congruence.
        -- apply index_inv in Hqi, Hpi.
           split; [split; [discriminate | lia] | discriminate].
    + apply index_none in Hpi.
      split; [split|].
      * intros [f Hf]. discriminate.
      * intros [H|[H|(qi' & pi' & _ & E2 & _)]]; [lia | lia | discriminate].
      * split; [split; [intros _; lia | reflexivity] | discriminate].
  - apply index_none in Hqi.
    split; [split|].
    + intros [f Hf]. discriminate.
    + intros [H|[H|(qi' & pi' & E1 & _ & _)]]; [lia | lia | discriminate].
    + split; [split; [intros _; lia | reflexivity] | discriminate].
Qed.

(** C6, amended.  For a row index [q >= 0] and a column index [p >= 0],
    [pivoting] raises one of its own exceptions exactly when [q] is at
    least the number of rows of the whole tableau (the row of the reduced
    costs is a valid pivot row), or [p] at least its number of columns (so
    is the right-hand side column), or [tableau[q][p]] is below [eps] in
    magnitude; in every other case it returns a tableau. *)
Theorem C6_pivot_exception_iff (T : tableau) (p q : nat) :
  ((exists f, pivoting T (Z.of_nat p) (Z.of_nat q) = inl (PivotException f)) <->
   (nrows T <= q \/ ncols T <= p \/ (Qabs (get T q p) < eps)%Q)) /\
  ((exists T', pivoting T (Z.of_nat p) (Z.of_nat q) = inr T') <->
   (q < nrows T /\ p < ncols T /\ (eps <= Qabs (get T q p))%Q)).
Proof.
  destruct (Nat.lt_ge_cases q (nrows T)) as [Hq|Hq].
  - destruct (Nat.lt_ge_cases p (ncols T)) as [Hp|Hp].
    + destruct (Qlt_le_dec (Qabs (get T q p)) eps) as [Hsmall|Hbig].
      * rewrite pivoting_too_small by assumption. split; split.
        -- intros _. right; right. exact Hsmall.
        -- intros _. eexists. reflexivity.
        -- intros [T' E]. discriminate.
        -- intros (_ & _ & Hbig). now destruct (Qlt_not_le _ _ Hsmall).
      * rewrite pivoting_in_range by assumption. split; split.
        -- intros [f E]. discriminate.
        -- intros [H|[H|H]]; [lia | lia | now destruct (Qlt_not_le _ _ H)].
        -- intros _. auto.
        -- intros _. eexists. reflexivity.
    + rewrite pivoting_closed.
      destruct (Z.geb_spec (Z.of_nat q) (Z.of_nat (nrows T))); [lia|].
      destruct (Z.geb_spec (Z.of_nat p) (Z.of_nat (ncols T))); [|lia].
      split; split.
      * intros _. right; left. exact Hp.
      * intros _. eexists. reflexivity.
      * intros [T' E]. discriminate.
      * intros (_ & Hx & _). lia.
  - rewrite pivoting_closed.
    destruct (Z.geb_spec (Z.of_nat q) (Z.of_nat (nrows T))); [|lia].
    split; split.
    + intros _. left. exact Hq.
    + intros _. eexists. reflexivity.
    + intros [T' E]. discriminate.
    + intros (Hx & _). lia.
Qed.

(** ** Small shapes *)


(** C7 as it is written fails: the 1x1 matrix [[2]] goes through each of
    the three entry points and comes back without an exception. *)
Lemma C7_counterexample :
  nrows [[2%Q]] < 2 /\ ncols [[2%Q]] < 2 /\
  simplexTableau [[2%Q]] = inr Optimal /\
  pivoting [[2%Q]] 0 0 = inr [[2 / 2]%Q] /\
  simplexAlgorithmTableau 1 [[2%Q]] = Some (inr ([[2%Q]], StatusOptimal)).
Proof.
  split; [cbv; lia|]. split; [cbv; lia|].
  split; [reflexivity|]. split; reflexivity.
Qed.

(** C7, amended.  No entry point looks at the shape.  On a rectangular
    matrix with fewer than 2 rows or fewer than 2 columns,
    [simplexTableau] and the loop answer Optimal when there is a row and
    no negative entry in the last row before its last column; with a
    negative one there is a single row, and the empty [argmin] raises
    [ValueError]; with no row at all the first read raises [IndexError].
    [pivoting] makes its three checks only, and pivots when they pass. *)
Theorem C7_no_shape_check (T : tableau) :
  rectangular T -> nrows T < 2 \/ ncols T < 2 ->
  (nrows T = 0 ->
   simplexTableau T = inl IndexError /\
   forall fuel, simplexAlgorithmTableau (S fuel) T = Some (inl IndexError)) /\
  (1 <= nrows T -> (forall j, j < n_of T -> (0 <= cost T j)%Q) ->
   simplexTableau T = inr Optimal /\
   forall fuel, simplexAlgorithmTableau (S fuel) T = Some (inr (T, StatusOptimal))) /\
  (1 <= nrows T -> (exists j, j < n_of T /\ (cost T j < 0)%Q) ->
   simplexTableau T = inl ValueError /\
   forall fuel, simplexAlgorithmTableau (S fuel) T = Some (inl ValueError)) /\
  (forall p q, q < nrows T -> p < ncols T -> (eps <= Qabs (get T q p))%Q ->
   exists T', pivoting T (Z.of_nat p) (Z.of_nat q) = inr T' /\
              nrows T' = nrows T /\ ncols T' = ncols T).
Proof.
  intros Hrect Hsmall.
  assert (Hloop : forall r, simplexTableau T = r ->
            (forall p q, r <> inr (Pivot p q)) ->
            forall fuel, simplexAlgorithmTableau (S fuel) T =
                         Some match r with
                              | inl e => inl e
                              | inr Optimal => inr (T, StatusOptimal)
                              | inr _ => inr (T, StatusUnbounded)
                              end).
  { intros r Hr Hnp fuel. simpl. rewrite Hr.
    destruct r as [e|[| |p q]]; try reflexivity. now destruct (Hnp p q). }
  split; [|split; [|split]].
  - intros H0. destruct T; [|discriminate].
    split; [reflexivity | intros fuel; reflexivity].
  - intros Hrows Hall.
    assert (H : simplexTableau T = inr Optimal).
    { apply simplexTableau_optimal.
      destruct (entering_column_rect T Hrect Hrows) as [[_ He] | (p & Hfn & _)];
        [exact He|].
      exfalso. destruct Hfn as (Hp & Hneg & _).
      exact (Qlt_not_le _ _ Hneg (Hall p Hp)). }
    split; [exact H|]. apply (Hloop _ H). discriminate.
  - intros Hrows (j & Hj & Hneg).
    assert (H : simplexTableau T = inl ValueError).
    { destruct (entering_column_rect T Hrect Hrows) as [[Hall _] | (p & _ & He)].
      - exfalso. exact (Qlt_not_le _ _ Hneg (Hall j Hj)).
      - rewrite (simplexTableau_entering _ _ He).
        apply ratio_test_no_rows. unfold m_of, n_of in *. lia. }
    split; [exact H|]. apply (Hloop _ H). discriminate.
  - intros p q Hq Hp Hbig. exists (pivoted T p q (Z.of_nat q)).
    split; [now apply pivoting_in_range|].
    split; [apply nrows_pivoted | now apply ncols_pivoted].
Qed.

Lemma C7_no_shape_check_witness :
  rectangular [[2%Q]] /\ (nrows [[2%Q]] < 2 \/ ncols [[2%Q]] < 2) /\
  simplexTableau [[2%Q]] = inr Optimal /\
  exists T', pivoting [[2%Q]] 0 0 = inr T' /\ nrows T' = 1 /\ ncols T' = 1.
Proof.
  assert (Hrect : rectangular [[2%Q]]) by by_inspection.
  assert (Hsmall : nrows [[2%Q]] < 2 \/ ncols [[2%Q]] < 2) by (left; simpl; lia).
  destruct (C7_no_shape_check [[2%Q]] Hrect Hsmall) as (_ & Hopt & _ & Hpiv).
  split; [exact Hrect|]. split; [exact Hsmall|]. split.
  - apply Hopt; [simpl; lia | intros j Hj; unfold n_of in Hj; simpl in Hj; lia].
  - apply (Hpiv 0 0); [simpl; lia | simpl; lia | vm_compute; discriminate].
Defined.

(** C8.  On [T1] the loop stops after four iterations with status Optimal;
    the tableau it returns is, in exact arithmetic, the one the notebook
    prints, and its entry in row 3, last column, is 136.  On [T2] it stops
    at once with status Unbounded. *)
Theorem C8_notebook_runs :
  (forall k, simplexAlgorithmTableau (4 + k) T1 = Some (inr (T1_final, StatusOptimal))) /\
  tableau_eq T1_final
    [[0; 0; 1; 2 # 5; 2 # 5; -3 # 5; 4];
     [1; 0; 0; -3 # 5; 2 # 5; 2 # 5; 4];
     [0; 1; 0; 2 # 5; -3 # 5; 2 # 5; 4];
     [0; 0; 0; 18 # 5; 8 # 5; 8 # 5; 136]]%Q /\
  (get T1_final 3 6 == 136)%Q /\
  (forall k, simplexAlgorithmTableau (1 + k) T2 = Some (inr (T2, StatusUnbounded))).
Proof.
  split; [|split; [|split]].
  - intros k. apply (simplexAlgorithmTableau_more_fuel 4); [|lia].
    vm_compute. reflexivity.
  - vm_compute. repeat constructor.
  - vm_compute. reflexivity.
  - intros k. apply (simplexAlgorithmTableau_more_fuel 1); [|lia].
    vm_compute. reflexivity.
Qed.

(** ** The pivot that the selection hands to [pivoting] *)





(** ** Pivoting twice *)

Lemma pivoted_unit_column (T : tableau) (p q i : nat) :
  rectangular T -> q < nrows T -> p < ncols T -> ~ (get T q p == 0)%Q ->
  i < nrows T ->
  (get (pivoted T p q (Z.of_nat q)) i p == if i =? q then 1 else 0)%Q.
Proof.
  intros Hrect Hq Hp Hnz Hi.
  assert (Hrow : forall k, k < nrows T -> p < length (get_row T k))
    by (intros k Hk; rewrite rectangular_row; assumption).
  destruct (Nat.eqb_spec i q) as [->|Hne].
  - rewrite get_pivoted_pivot_row by auto. field. exact Hnz.
  - rewrite get_pivoted_other_row by auto. field. exact Hnz.
Qed.

Lemma pivoted_twice (T : tableau) (p q : nat) :
  rectangular T -> q < nrows T -> p < ncols T -> ~ (get T q p == 0)%Q ->
  let T' := pivoted T p q (Z.of_nat q) in
  tableau_eq (pivoted T' p q (Z.of_nat q)) T'.
Proof.
  intros Hrect Hq Hp Hnz T'.
  assert (Hrect' : rectangular T') by now apply rectangular_pivoted.
  assert (Hrows' : nrows T' = nrows T) by apply nrows_pivoted.
  assert (Hcols' : ncols T' = ncols T) by now apply ncols_pivoted.
  assert (Hone : (get T' q p == 1)%Q).
  { pose proof (pivoted_unit_column T p q q Hrect Hq Hp Hnz Hq) as H.
    rewrite Nat.eqb_refl in H. exact H. }
  assert (Hzero : forall i, i < nrows T -> i <> q -> (get T' i p == 0)%Q).
  { intros i Hi Hne.
    pose proof (pivoted_unit_column T p q i Hrect Hq Hp Hnz Hi) as H.
    destruct (Nat.eqb_spec i q); [contradiction | exact H]. }
  assert (Hlen : forall i, i < nrows T' -> length (get_row T' i) = ncols T')
    by (intros i Hi; now apply rectangular_row).
  apply (Forall2_nth_iff _ _ _ [] []). split.
  - rewrite (nrows_pivoted T'). reflexivity.
  - intros i Hi. change (length (pivoted T' p q (Z.of_nat q)))
      with (nrows (pivoted T' p q (Z.of_nat q))) in Hi.
    rewrite nrows_pivoted in Hi.
    change (Forall2 Qeq (get_row (pivoted T' p q (Z.of_nat q)) i) (get_row T' i)).
    apply (Forall2_nth_iff _ _ _ 0%Q 0%Q).
    assert (Hl : length (get_row (pivoted T' p q (Z.of_nat q)) i) = ncols T')
      by (apply length_row_pivoted; (assumption || lia)).
    split; [rewrite Hl, Hlen by exact Hi; reflexivity|].
    intros j Hj. rewrite Hl in Hj.
    change (get (pivoted T' p q (Z.of_nat q)) i j == get T' i j)%Q.
    destruct (Nat.eq_dec i q) as [->|Hne].
    + rewrite get_pivoted_pivot_row by (rewrite ?Hlen; assumption).
      rewrite Hone. field.
    + rewrite get_pivoted_other_row
        by (rewrite ?Hlen; (assumption || lia)).
      rewrite Hone, (Hzero i) by (assumption || lia). field.
Qed.

Lemma pivoting_on_pure (junk : nat -> nat -> Q) (h : heap) (t : loc) (p q : Z) :
  t < length h ->
  pivoting_on junk h t p q =
  (R <- pivoting (deref h t) p q ;; ret (h ++ [R], length h)).
Proof.
  intros Ht. rewrite pivoting_on_closed by exact Ht. cbv zeta.
  rewrite pivoting_closed.
  destruct (q >=? Z.of_nat (nrows (deref h t)))%Z; [reflexivity|].
  destruct (p >=? Z.of_nat (ncols (deref h t)))%Z; [reflexivity|].
  destruct (index (nrows (deref h t)) q) as [qi|]; [|reflexivity].
  destruct (index (ncols (deref h t)) p) as [pi|]; [|reflexivity].
  destruct (Qltb (Qabs (get (deref h t) qi pi)) eps); reflexivity.
Qed.

(** C10 as it is written fails.  On [T_tiny_pivot] the position (0, 0)
    is inside the array and its entry 2^-53 is not zero; [pivoting] raises
    there, the pivot being below [eps], so no tableau is returned, the
    first time or the second. *)
Lemma C10_counterexample :
  rectangular T_tiny_pivot /\ 0 < nrows T_tiny_pivot /\ 0 < ncols T_tiny_pivot /\
  ~ (get T_tiny_pivot 0 0 == 0)%Q /\
  pivoting T_tiny_pivot 0 0 = inl (PivotException PivotTooSmall).
Proof.
  split; [by_inspection|]. split; [simpl; lia|]. split; [simpl; lia|].
  split; [vm_compute; discriminate | reflexivity].
Qed.

(** C10, amended.  At a position [(p, q)] inside a rectangular tableau
    whose entry is not below [eps] in magnitude, [pivoting] returns a
    tableau, and [pivoting] on that tableau at the same position returns a
    tableau equal to it in exact arithmetic.  Whatever the two indices, a
    returned tableau has the shape of the argument.  The call writes a new
    array only: it leaves the argument, and every array of the heap, as it
    was, and returns the location of a new one. *)
Theorem C10_pivot_idempotent (T : tableau) (p q : nat) :
  rectangular T -> q < nrows T -> p < ncols T -> (eps <= Qabs (get T q p))%Q ->
  (exists T' T'',
     pivoting T (Z.of_nat p) (Z.of_nat q) = inr T' /\
     pivoting T' (Z.of_nat p) (Z.of_nat q) = inr T'' /\
     tableau_eq T'' T') /\
  (forall (p' q' : Z) T', pivoting T p' q' = inr T' ->
     nrows T' = nrows T /\ ncols T' = ncols T) /\
  (forall junk h t h' l,
     t < length h -> deref h t = T ->
     pivoting_on junk h t (Z.of_nat p) (Z.of_nat q) = inr (h', l) ->
     deref h' t = T /\ (forall l', l' < length h -> deref h' l' = deref h l') /\
     l = length h /\ pivoting T (Z.of_nat p) (Z.of_nat q) = inr (deref h' l)).
Proof.
  intros Hrect Hq Hp Hbig.
  pose proof (not_small_nonzero _ Hbig) as Hnz.
  split; [|split].
  - exists (pivoted T p q (Z.of_nat q)).
    exists (pivoted (pivoted T p q (Z.of_nat q)) p q (Z.of_nat q)).
    split; [now apply pivoting_in_range|]. split; [|now apply pivoted_twice].
    apply pivoting_in_range.
    + rewrite nrows_pivoted. exact Hq.
    + rewrite ncols_pivoted by assumption. exact Hp.
    + pose proof (pivoted_unit_column T p q q Hrect Hq Hp Hnz Hq) as H1.
      rewrite Nat.eqb_refl in H1. rewrite H1. vm_compute. discriminate.
  - intros p' q' T' H.
    destruct (pivoting_shape _ _ _ _ Hrect H) as (Hr' & Hc' & _). auto.
  - intros junk h t h' l Ht HT H.
    rewrite pivoting_on_pure, HT in H by exact Ht.
    destruct (pivoting T (Z.of_nat p) (Z.of_nat q)) as [e|R]; [discriminate|].
    cbn [bind ret] in H. injection H as <- <-.
    rewrite deref_app_new, deref_app_old, HT by exact Ht.
    split; [reflexivity|]. split; [|split; reflexivity].
    intros l' Hl'. now apply deref_app_old.
Qed.

Lemma C10_pivot_idempotent_witness :
  rectangular T3 /\ 1 < nrows T3 /\ 1 < ncols T3 /\ (eps <= Qabs (get T3 1 1))%Q /\
  exists T' T'',
    pivoting T3 1 1 = inr T' /\ pivoting T' 1 1 = inr T'' /\ tableau_eq T'' T'.
Proof.
  assert (Hrect : rectangular T3) by by_inspection.
  assert (Hq : 1 < nrows T3) by (simpl; lia).
  assert (Hp : 1 < ncols T3) by (simpl; lia).
  assert (Hbig : (eps <= Qabs (get T3 1 1))%Q) by (vm_compute; discriminate).
  repeat (split; [assumption|]).
  exact (proj1 (C10_pivot_idempotent T3 1 1 Hrect Hq Hp Hbig)).
Defined.

(** ** One pivot *)


(** ** The loop, iteration by iteration *)









(** ** Answers and exceptions *)

(** X10.  On an array with at least one row, [simplexTableau] answers
    Optimal exactly when no entry of the last row, its last column left
    out, is negative. *)
Theorem X10_optimal_iff (T : tableau) :
  rectangular T -> 1 <= nrows T ->
  (simplexTableau T = inr Optimal <-> forall j, j < n_of T -> (0 <= cost T j)%Q).
Proof.
  intros Hrect Hrows. rewrite simplexTableau_optimal.
  destruct (entering_column_rect T Hrect Hrows) as [[Hall He] | (p & Hfn & He)].
  - split; [intros _; exact Hall | intros _; exact He].
  - split; [congruence|].
    intros Hall. exfalso. destruct Hfn as (Hp & Hneg & _).
    exact (Qlt_not_le _ _ Hneg (Hall p Hp)).
Qed.

Lemma X10_optimal_iff_witness :
  rectangular T1_final /\ 1 <= nrows T1_final /\
  (simplexTableau T1_final = inr Optimal <->
   forall j, j < n_of T1_final -> (0 <= cost T1_final j)%Q).
Proof.
  assert (Hrect : rectangular T1_final) by (vm_compute; repeat constructor).
  assert (Hrows : 1 <= nrows T1_final) by (vm_compute; lia).
  split; [exact Hrect|]. split; [exact Hrows|].
  exact (X10_optimal_iff T1_final Hrect Hrows).
Defined.

(** X11.  [simplexTableau] raises in two cases only: [IndexError] on an
    array without rows, and [ValueError] on an array of one row that has a
    negative entry before its last column ([argmin] of no step at all).
    With two rows or more it never raises. *)
Theorem X11_simplexTableau_raises (T : tableau) (e : exn) :
  rectangular T ->
  (simplexTableau T = inl e <->
   (nrows T = 0 /\ e = IndexError) \/
   (nrows T = 1 /\ (exists j, j < n_of T /\ (cost T j < 0)%Q) /\ e = ValueError)).
Proof.
  intros Hrect. destruct T as [|r0 T0].
  - split.
    + intros H. left. split; [reflexivity|]. cbv in H. congruence.
    + intros [[_ ->] | [H _]]; [reflexivity | discriminate].
  - set (T := r0 :: T0) in *.
    assert (Hrows : 1 <= nrows T) by (simpl; lia).
    destruct (entering_column_rect T Hrect Hrows) as [[Hall He] | (p & Hfn & He)].
    + apply simplexTableau_optimal in He. rewrite He. split; [discriminate|].
      intros [[H _] | (_ & (j & Hj & Hneg) & _)]; [lia|].
      exfalso. exact (Qlt_not_le _ _ Hneg (Hall j Hj)).
    + rewrite (simplexTableau_entering _ _ He).
      destruct (Nat.eq_dec (m_of T) 0) as [Hm|Hm].
      * rewrite ratio_test_no_rows by exact Hm. split.
        -- intros E. injection E as <-. right.
           split; [unfold m_of in Hm; lia|]. split; [|reflexivity].
           exists p. destruct Hfn as (Hp & Hneg & _). auto.
        -- intros [[H _] | (_ & _ & ->)]; [lia | reflexivity].
      * destruct (ratio_test_cases T p Hrect) as [[Hu _] | (q & Hq & _)]; [lia | |].
        -- rewrite Hu. split; [discriminate|].
           intros [[H _] | (H & _)]; unfold m_of in Hm; lia.
        -- rewrite Hq. split; [discriminate|].
           intros [[H _] | (H & _)]; unfold m_of in Hm; lia.
Qed.

Lemma X11_simplexTableau_raises_witness :
  rectangular [[-1; 0; 1]]%Q /\ simplexTableau [[-1; 0; 1]]%Q = inl ValueError.
Proof.
  assert (Hrect : rectangular [[-1; 0; 1]]%Q) by by_inspection.
  split; [exact Hrect|].
  apply (X11_simplexTableau_raises [[-1; 0; 1]]%Q ValueError Hrect).
  right. split; [reflexivity|]. split; [|reflexivity].
  exists 0. split; [vm_compute; lia | reflexivity].
Defined.


(** X14.  What [np.empty] left in the new array never reaches the result of
    [pivoting]: every row is written before the array is returned.  The
    call adds one array to the heap, the one it returns, and writes no
    other. *)
Theorem X14_np_empty_never_read (junk junk' : nat -> nat -> Q)
        (h : heap) (t : loc) (p q : Z) :
  t < length h ->
  pivoting_on junk h t p q = pivoting_on junk' h t p q /\
  forall h' l, pivoting_on junk h t p q = inr (h', l) ->
    l = length h /\ exists R, h' = h ++ [R] /\ pivoting (deref h t) p q = inr R.
Proof.
  intros Ht. split; [now rewrite !pivoting_on_pure|].
  intros h' l H. rewrite pivoting_on_pure in H by exact Ht.
  destruct (pivoting (deref h t) p q) as [e|R]; [discriminate|].
  cbn [bind ret] in H. injection H as <- <-.
  split; [reflexivity|]. exists R. split; reflexivity.
Qed.

Lemma X14_np_empty_never_read_witness :
  0 < length [T2] /\
  pivoting_on (fun _ _ => 0%Q) [T2] 0 1 1 = pivoting_on (fun i j => inject_Z (Z.of_nat (i + j))) [T2] 0 1 1 /\
  exists h' l, pivoting_on (fun _ _ => 0%Q) [T2] 0 1 1 = inr (h', l).
Proof.
  assert (Ht : 0 < length [T2]) by (simpl; lia).
  split; [exact Ht|]. split.
  - exact (proj1 (X14_np_empty_never_read (fun _ _ => 0%Q)
                    (fun i j => inject_Z (Z.of_nat (i + j))) [T2] 0 1 1 Ht)).
  - eexists. eexists. vm_compute. reflexivity.
Defined.

(** * The float64 routines *)

(** ** The order of binary64 *)

Lemma SFcompare_key (f1 f2 : SpecFloat.spec_float) :
  sf_nan f1 = false -> sf_nan f2 = false ->
  exists c, SpecFloat.SFcompare f1 f2 = Some c /\
            CompareSpec (sf_key f1 = sf_key f2) (lt3 (sf_key f1) (sf_key f2))
                        (lt3 (sf_key f2) (sf_key f1)) c.
Proof.
  destruct f1 as [[]|[]| |[] m1 e1], f2 as [[]|[]| |[] m2 e2]; try discriminate;
    intros _ _; simpl; (eexists; split; [reflexivity|]);
    try (constructor; simpl; (reflexivity || lia)).
  - destruct (Z.compare_spec e1 e2) as [->|H|H]; try (constructor; simpl; lia).
    change (Pos.compare_cont Eq m1 m2) with (Pos.compare m1 m2).
    destruct (Pos.compare_spec m1 m2) as [->|H|H]; simpl; constructor; simpl;
      (reflexivity || lia).
  - destruct (Z.compare_spec e1 e2) as [->|H|H]; try (constructor; simpl; lia).
    change (Pos.compare_cont Eq m1 m2) with (Pos.compare m1 m2).
    destruct (Pos.compare_spec m1 m2) as [->|H|H]; simpl; constructor; simpl;
      (reflexivity || lia).
Qed.

Lemma is_nan_sf (x : PrimFloat.float) :
  PrimFloat.is_nan x = sf_nan (FloatOps.Prim2SF x).
Proof.
  unfold PrimFloat.is_nan. rewrite FloatAxioms.eqb_spec. unfold SpecFloat.SFeqb.
  destruct (sf_nan (FloatOps.Prim2SF x)) eqn:E.
  - destruct (FloatOps.Prim2SF x); try discriminate. reflexivity.
  - destruct (SFcompare_key _ _ E E) as (c & -> & Hc).
    destruct Hc as [_|H|H]; [reflexivity | |];
      exfalso; unfold lt3 in H; destruct (sf_key (FloatOps.Prim2SF x)) as [[a b] c0]; lia.
Qed.

Lemma SFcompare_some (f1 f2 : SpecFloat.spec_float) (c : comparison) :
  SpecFloat.SFcompare f1 f2 = Some c -> sf_nan f1 = false /\ sf_nan f2 = false.
Proof.
  destruct f1, f2; simpl; try discriminate; auto.
Qed.

(** A comparison of two floats, read on their keys. *)
Ltac compare_keys x y :=
  rewrite !is_nan_sf; unfold key;
  let c := fresh "c" in
  let E := fresh "E" in
  destruct (SpecFloat.SFcompare (FloatOps.Prim2SF x) (FloatOps.Prim2SF y)) as [c|] eqn:E;
  [ let H1 := fresh "H1" in
    let H2 := fresh "H2" in
    let c' := fresh "c'" in
    let E' := fresh "E'" in
    let Hc := fresh "Hc" in
    let H := fresh "H" in
    let Ht := fresh "Ht" in
    destruct (SFcompare_some _ _ _ E) as [H1 H2];
    destruct (SFcompare_key _ _ H1 H2) as (c' & E' & Hc);
    rewrite E in E'; injection E' as <-;
    destruct (sf_key (FloatOps.Prim2SF x)) as [[? ?] ?],
             (sf_key (FloatOps.Prim2SF y)) as [[? ?] ?];
    destruct Hc as [H|H|H]; unfold lt3, eq3 in *;
    (split; [intros Ht; try discriminate Ht | intros (_ & _ & Ht)]);
    try (injection H as -> -> ->); repeat split; auto; try lia
  | let H1 := fresh "H1" in
    let H2 := fresh "H2" in
    let c' := fresh "c'" in
    let E' := fresh "E'" in
    split; [discriminate|]; intros (H1 & H2 & _);
    destruct (SFcompare_key _ _ H1 H2) as (c' & E' & _); congruence ].

Lemma leb_key (x y : PrimFloat.float) :
  PrimFloat.leb x y = true <->
  PrimFloat.is_nan x = false /\ PrimFloat.is_nan y = false /\
  (eq3 (key x) (key y) \/ lt3 (key x) (key y)).
Proof.
  rewrite FloatAxioms.leb_spec. unfold SpecFloat.SFleb. compare_keys x y.
Qed.

Lemma ltb_key (x y : PrimFloat.float) :
  PrimFloat.ltb x y = true <->
  PrimFloat.is_nan x = false /\ PrimFloat.is_nan y = false /\ lt3 (key x) (key y).
Proof.
  rewrite FloatAxioms.ltb_spec. unfold SpecFloat.SFltb. compare_keys x y.
Qed.

Lemma eqb_key (x y : PrimFloat.float) :
  PrimFloat.eqb x y = true <->
  PrimFloat.is_nan x = false /\ PrimFloat.is_nan y = false /\ eq3 (key x) (key y).
Proof.
  rewrite FloatAxioms.eqb_spec. unfold SpecFloat.SFeqb. compare_keys x y.
Qed.

Lemma key_bound (x : PrimFloat.float) :
  let '(a, b, c) := key x in
  (-2 <= a <= 2)%Z /\ (a = 2%Z -> b = 0%Z /\ c = 0%Z).
Proof.
  unfold key. destruct (FloatOps.Prim2SF x) as [s|[]| |[] m e]; simpl; lia.
Qed.

Lemma key_infinity : key PrimFloat.infinity = (2, 0, 0)%Z.
Proof. reflexivity. Qed.

Lemma is_nan_infinity : PrimFloat.is_nan PrimFloat.infinity = false.
Proof. reflexivity. Qed.

Lemma leb_false_key (x y : PrimFloat.float) :
  PrimFloat.leb x y = false <->
  PrimFloat.is_nan x = true \/ PrimFloat.is_nan y = true \/ lt3 (key y) (key x).
Proof.
  rewrite <- Bool.not_true_iff_false, leb_key.
  pose proof (key_bound x). pose proof (key_bound y).
  destruct (key x) as [[a1 a2] a3], (key y) as [[b1 b2] b3].
  destruct (PrimFloat.is_nan x), (PrimFloat.is_nan y); unfold lt3, eq3;
    split; intros; try (intuition congruence); try lia.
Qed.

(** Facts of the order follow from the keys by linear arithmetic. *)
Ltac float_order :=
  rewrite ?leb_key, ?ltb_key, ?eqb_key, ?leb_false_key in *;
  rewrite ?key_infinity, ?is_nan_infinity in *;
  repeat match goal with
         | |- context [key ?x] =>
             let a := fresh "a" in let b := fresh "b" in let c := fresh "c" in
             pose proof (key_bound x); destruct (key x) as [[a b] c]
         | H : context [key ?x] |- _ =>
             let a := fresh "a" in let b := fresh "b" in let c := fresh "c" in
             pose proof (key_bound x); destruct (key x) as [[a b] c]
         end;
  unfold lt3, eq3 in *;
  repeat match goal with
         | |- context [PrimFloat.is_nan ?x] => destruct (PrimFloat.is_nan x)
         | H : context [PrimFloat.is_nan ?x] |- _ => destruct (PrimFloat.is_nan x)
         end;
  try lia; try (intuition (congruence || lia)).

Lemma fleb_refl (x : PrimFloat.float) :
  PrimFloat.is_nan x = false -> PrimFloat.leb x x = true.
Proof. intros H. float_order. Qed.

Lemma fltb_leb_trans (x y z : PrimFloat.float) :
  PrimFloat.ltb x y = true -> PrimFloat.leb y z = true -> PrimFloat.ltb x z = true.
Proof. intros H1 H2. float_order. Qed.

Lemma fltb_leb (x y : PrimFloat.float) :
  PrimFloat.ltb x y = true -> PrimFloat.leb x y = true.
Proof. intros H1. float_order. Qed.

Lemma fleb_not_nan (x y : PrimFloat.float) :
  PrimFloat.leb x y = true -> PrimFloat.is_nan x = false /\ PrimFloat.is_nan y = false.
Proof. intros H1. float_order. Qed.

Lemma fleb_false_ltb (x y : PrimFloat.float) :
  PrimFloat.leb x y = false ->
  PrimFloat.is_nan x = false -> PrimFloat.is_nan y = false ->
  PrimFloat.ltb y x = true.
Proof. intros H1 H2 H3. float_order. Qed.

Lemma fltb_false_leb (x y : PrimFloat.float) :
  PrimFloat.ltb x y = false ->
  PrimFloat.is_nan x = true \/ PrimFloat.is_nan y = true \/ PrimFloat.leb y x = true.
Proof.
  intros H.
  destruct (PrimFloat.is_nan x) eqn:Hx; [auto|].
  destruct (PrimFloat.is_nan y) eqn:Hy; [auto|].
  right; right.
  destruct (PrimFloat.leb y x) eqn:E; [reflexivity|].
  pose proof (fleb_false_ltb _ _ E Hy Hx). congruence.
Qed.


Lemma feqb_not_nan (x y : PrimFloat.float) :
  PrimFloat.eqb x y = true -> PrimFloat.is_nan x = false /\ PrimFloat.is_nan y = false.
Proof. intros H1. float_order. Qed.



Lemma fleb_eqb_infinity_r (x y : PrimFloat.float) :
  PrimFloat.leb x y = true -> PrimFloat.eqb x PrimFloat.infinity = true ->
  PrimFloat.eqb y PrimFloat.infinity = true.
Proof. intros H1 H2. float_order. Qed.




(** ** A quotient of binary64 *)




Section Float64.
Import PrimFloat.
Import F64.

(** ** [np.argmin] on floats *)

Lemma argmin_scan_spec (l pre : list float) (bi : nat) :
  first_min (fun j => nth j pre 0%float) (length pre) bi ->
  let r := argmin_scan l (length pre) bi (nth bi pre 0%float) in
  first_nan (fun j => nth j (pre ++ l) 0%float) (length (pre ++ l)) r \/
  first_min (fun j => nth j (pre ++ l) 0%float) (length (pre ++ l)) r.
Proof.
  revert pre bi; induction l as [|x l IH]; intros pre bi (Hbi & Hmin & Hfst).
  - simpl. rewrite app_nil_r. right. repeat split; assumption.
  - cbn [argmin_scan].
    assert (Hlen : length (pre ++ [x]) = S (length pre))
      by (rewrite length_app; simpl; lia).
    assert (Hx : nth (length pre) (pre ++ [x]) 0%float = x)
      by (rewrite app_nth2, Nat.sub_diag by lia; reflexivity).
    assert (Hpre : forall j, j < length pre -> is_nan (nth j pre 0%float) = false)
      by (intros j Hj; exact (proj2 (fleb_not_nan _ _ (Hmin j Hj)))).
    replace (pre ++ x :: l) with ((pre ++ [x]) ++ l)
      by (rewrite <- app_assoc; reflexivity).
    destruct (leb (nth bi pre 0%float) x) eqn:Hb; cbn [negb].
    + specialize (IH (pre ++ [x]) bi).
      rewrite Hlen in IH. rewrite (app_nth1 pre [x] 0%float Hbi) in IH.
      apply IH. repeat split; [lia | |].
      * intros j Hj. rewrite (app_nth1 pre [x] 0%float Hbi).
        destruct (Nat.eq_dec j (length pre)) as [->|Hjn].
        -- rewrite Hx. exact Hb.
        -- rewrite app_nth1 by lia. apply Hmin; lia.
      * intros j Hj. rewrite (app_nth1 pre [x] 0%float Hbi).
        rewrite app_nth1 by lia. apply Hfst, Hj.
    + destruct (is_nan x) eqn:Hnan.
      * left. repeat split.
        -- rewrite !length_app. simpl. lia.
        -- rewrite <- app_assoc. rewrite app_nth2, Nat.sub_diag by lia. exact Hnan.
        -- intros j Hj. rewrite <- app_assoc. rewrite app_nth1 by lia.
           apply Hpre; lia.
      * assert (Hlt : ltb x (nth bi pre 0%float) = true)
          by (apply fleb_false_ltb; [exact Hb | apply Hpre, Hbi | exact Hnan]).
        specialize (IH (pre ++ [x]) (length pre)).
        rewrite Hlen, Hx in IH. apply IH. repeat split; [lia | |].
        -- intros j Hj. rewrite Hx.
           destruct (Nat.eq_dec j (length pre)) as [->|Hjn].
           ++ rewrite Hx. apply fleb_refl, Hnan.
           ++ rewrite app_nth1 by lia.
              apply fltb_leb, (fltb_leb_trans _ _ _ Hlt), Hmin. lia.
        -- intros j Hj. rewrite Hx. rewrite app_nth1 by lia.
           apply (fltb_leb_trans _ _ _ Hlt), Hmin. lia.
Qed.

(** [np.argmin] returns the first NaN when there is one, and the first
    position of the least value otherwise. *)
Lemma argmin_spec (l : list float) :
  l <> [] ->
  exists r, argmin l = inr r /\
            (first_nan (fun j => nth j l 0%float) (length l) r \/
             first_min (fun j => nth j l 0%float) (length l) r).
Proof.
  destruct l as [|x l]; [congruence|]. intros _. unfold argmin.
  destruct (is_nan x) eqn:Hnan.
  - exists 0. split; [reflexivity|]. left.
    repeat split; [simpl; lia | exact Hnan | intros j Hj; lia].
  - eexists. split; [reflexivity|].
    apply (argmin_scan_spec l [x] 0).
    repeat split; [simpl; lia | | intros j Hj; lia].
    intros [|j] Hj; [apply fleb_refl, Hnan | simpl in Hj; lia].
Qed.

(** ** Reading an array *)

Lemma rectangular_row_f64 (T : ndarray) (i : nat) :
  rectangular T -> i < nrows T -> length (get_row T i) = ncols T.
Proof.
  intros Hrect Hi. unfold rectangular in Hrect. rewrite Forall_forall in Hrect.
  apply Hrect. apply nth_In. exact Hi.
Qed.

Lemma last_row_f64 (T : ndarray) : last (rows T) [] = get_row T (m_of T).
Proof. apply last_nth. Qed.


(** ** The entering column *)

Lemma entering_column_cases_f64 (T : ndarray) :
  rectangular T -> 1 <= nrows T ->
  ((forall j, j < n_of T -> ltb (cost T j) 0%float = false) /\
   entering_column T = inr None) \/
  (exists p, first_negative T p /\ entering_column T = inr (Some p)).
Proof.
  intros Hrect Hrows. unfold entering_column, reduced_costs.
  destruct (rows T) as [|r0 T0] eqn:HT.
  { unfold nrows in Hrows. rewrite HT in Hrows. simpl in Hrows. lia. }
  rewrite <- HT. cbn [bind ret]. rewrite last_row_f64.
  set (rc := removelast (get_row T (m_of T))).
  assert (Hlen : length rc = n_of T).
  { unfold rc. rewrite length_removelast, rectangular_row_f64
      by (assumption || unfold m_of; lia). reflexivity. }
  assert (Hcost : forall j, j < n_of T ->
            nth j (map (fun c => ltb c 0%float) rc) false = ltb (cost T j) 0%float).
  { intros j Hj. rewrite (nth_map_in _ _ _ 0%float) by lia.
    unfold rc. rewrite nth_removelast; [reflexivity|].
    rewrite rectangular_row_f64 by (assumption || unfold m_of; lia). exact Hj. }
  destruct (any (map (fun c => ltb c 0%float) rc)) eqn:Hany; cbn [negb].
  - right. destruct (argmax_first_true _ Hany) as (p & Hp & Hlt & Htrue & Hfst).
    rewrite length_map, Hlen in Hlt.
    exists p. split; [|rewrite Hp; reflexivity].
    split; [exact Hlt|]. split.
    + rewrite <- Hcost by exact Hlt. exact Htrue.
    + intros j Hj. rewrite <- Hcost by lia. apply Hfst, Hj.
  - left. split; [|reflexivity].
    intros j Hj. rewrite <- Hcost by exact Hj. apply any_false_nth, Hany.
Qed.

Lemma entering_column_no_row_f64 (T : ndarray) :
  nrows T = 0 -> entering_column T = inl IndexError.
Proof.
  unfold nrows, entering_column, reduced_costs.
  destruct (rows T); [reflexivity | discriminate].
Qed.

Lemma first_negative_unique_f64 (T : ndarray) (p p' : nat) :
  first_negative T p -> first_negative T p' -> p = p'.
Proof.
  intros (_ & Hn & Hf) (_ & Hn' & Hf').
  destruct (Nat.lt_trichotomy p p') as [H|[H|H]]; [|exact H|].
  - specialize (Hf' p H). congruence.
  - specialize (Hf p' H). congruence.
Qed.

(** ** The ratio test *)

Lemma step_list_nth_f64 (T : ndarray) (p k : nat) :
  rectangular T -> k < m_of T ->
  nth k (step_list (map (fun r => last r 0%float) (removelast (rows T)))
                   (map (fun r => nth p r 0%float) (removelast (rows T)))
                   (nrows T - 1)) 0%float
  = step T p k.
Proof.
  intros Hrect Hk. unfold step_list. fold (m_of T).
  rewrite nth_map_seq by exact Hk.
  assert (Hk' : k < length (removelast (rows T)))
    by (rewrite length_removelast; exact Hk).
  rewrite !(nth_map_in _ _ _ []) by exact Hk'.
  rewrite nth_removelast by exact Hk.
  rewrite last_nth. change (nth k (rows T) []) with (get_row T k).
  rewrite rectangular_row_f64 by (assumption || (unfold m_of in Hk; lia)).
  reflexivity.
Qed.

Lemma ratio_test_no_rows_f64 (T : ndarray) (p : nat) :
  m_of T = 0 -> ratio_test T p = inl ValueError.
Proof.
  intros Hm. unfold ratio_test. unfold m_of in Hm. rewrite Hm. reflexivity.
Qed.

(** The two answers of the ratio test. *)
Lemma ratio_test_cases_f64 (T : ndarray) (p : nat) :
  rectangular T -> 1 <= m_of T ->
  (ratio_test T p = inr UnboundedDir /\
   forall i, i < m_of T -> ltb 0 (get T i p) = true ->
             eqb (ratio T p i) infinity = true) \/
  (exists q, ratio_test T p = inr (Pivot p q) /\ leaving_row T p q).
Proof.
  intros Hrect Hm. unfold ratio_test.
  set (steps := step_list _ _ _).
  assert (Hlen : length steps = m_of T)
    by (unfold steps, step_list; rewrite length_map, length_seq; reflexivity).
  assert (Hnth : forall k, k < m_of T -> nth k steps 0%float = step T p k)
    by (intros k Hk; apply step_list_nth_f64; assumption).
  assert (Hne : steps <> [])
    by (intros E; rewrite E in Hlen; simpl in Hlen; lia).
  destruct (argmin_spec steps Hne) as (q & Hq & Hcase).
  rewrite Hq. cbn [bind]. rewrite Hlen in Hcase.
  assert (Hqm : q < m_of T) by (destruct Hcase as [(H & _) | (H & _)]; exact H).
  rewrite (nth_indep steps infinity 0%float) by (rewrite Hlen; exact Hqm).
  rewrite (Hnth q Hqm).
  destruct (eqb (step T p q) infinity) eqn:Hinf.
  - left. split; [reflexivity|].
    destruct Hcase as [(_ & Hn & _) | (_ & Hmin & _)].
    + rewrite (Hnth q Hqm) in Hn.
      destruct (feqb_not_nan _ _ Hinf) as [Hn' _]. congruence.
    + intros i Hi Hpos. specialize (Hmin i Hi).
      rewrite (Hnth q Hqm), (Hnth i Hi) in Hmin.
      pose proof (fleb_eqb_infinity_r _ _ Hmin Hinf) as H.
      unfold step in H. rewrite Hpos in H. exact H.
  - right. exists q. split; [reflexivity|].
    assert (Hpos : ltb 0 (get T q p) = true).
    { destruct (ltb 0 (get T q p)) eqn:E; [reflexivity|].
      unfold step in Hinf. rewrite E in Hinf. discriminate. }
    assert (Hsq : step T p q = ratio T p q) by (unfold step; rewrite Hpos; reflexivity).
    rewrite Hsq in Hinf.
    split; [exact Hqm|]. split; [exact Hpos|]. split; [exact Hinf|].
    destruct Hcase as [(_ & Hn & Hfst) | (_ & Hmin & Hfst)].
    + left. rewrite (Hnth q Hqm), Hsq in Hn. split; [exact Hn|].
      intros i Hi Hip. specialize (Hfst i Hi). rewrite (Hnth i) in Hfst by lia.
      unfold step in Hfst. rewrite Hip in Hfst. exact Hfst.
    + right. split.
      * intros i Hi Hip. specialize (Hmin i Hi).
        rewrite (Hnth q Hqm), (Hnth i Hi), Hsq in Hmin.
        unfold step in Hmin. rewrite Hip in Hmin. exact Hmin.
      * intros i Hi Hip. specialize (Hfst i Hi).
        rewrite (Hnth q Hqm), (Hnth i) in Hfst by lia. rewrite Hsq in Hfst.
        unfold step in Hfst. rewrite Hip in Hfst. exact Hfst.
Qed.

(** ** What [simplexTableau] returns *)

Lemma ratio_test_not_optimal_f64 (T : ndarray) (p : nat) :
  ratio_test T p <> inr Optimal.
Proof.
  unfold ratio_test. destruct (argmin _) as [e|q]; cbn [bind]; [discriminate|].
  destruct (eqb _ _); discriminate.
Qed.

Lemma simplexTableau_optimal_f64 (T : ndarray) :
  simplexTableau T = inr Optimal <-> entering_column T = inr None.
Proof.
  unfold simplexTableau. destruct (entering_column T) as [e|[p|]]; cbn [bind].
  - split; discriminate.
  - split; [intros H; now apply ratio_test_not_optimal_f64 in H | discriminate].
  - split; reflexivity.
Qed.

(** [simplexTableau] on an array with rows: Optimal, or the ratio test of
    the first negative column. *)
Lemma simplexTableau_cases_f64 (T : ndarray) :
  rectangular T -> 1 <= nrows T ->
  ((forall j, j < n_of T -> ltb (cost T j) 0%float = false) /\
   simplexTableau T = inr Optimal) \/
  (exists p, first_negative T p /\ simplexTableau T = ratio_test T p).
Proof.
  intros Hrect Hrows. unfold simplexTableau.
  destruct (entering_column_cases_f64 T Hrect Hrows) as [[Hall ->] | (p & Hfn & ->)].
  - left. split; [exact Hall | reflexivity].
  - right. exists p. split; [exact Hfn | reflexivity].
Qed.

Lemma simplexTableau_rows_f64 (T : ndarray) (d : decision) :
  simplexTableau T = inr d -> 1 <= nrows T.
Proof.
  intros H. destruct (Nat.eq_dec (nrows T) 0) as [E|E]; [|lia].
  unfold simplexTableau in H. rewrite entering_column_no_row_f64 in H by exact E.
  discriminate.
Qed.

(** The answer Unbounded, on any array. *)
Lemma simplexTableau_unbounded_f64 (T : ndarray) :
  rectangular T ->
  (simplexTableau T = inr UnboundedDir <->
   2 <= nrows T /\
   exists p, first_negative T p /\
             forall i, i < m_of T -> ltb 0 (get T i p) = true ->
                       eqb (ratio T p i) infinity = true).
Proof.
  intros Hrect. split.
  - intros H. pose proof (simplexTableau_rows_f64 _ _ H) as Hrows.
    destruct (simplexTableau_cases_f64 T Hrect Hrows) as [[_ Ho] | (p & Hfn & Hs)];
      [congruence|].
    rewrite Hs in H.
    destruct (Nat.eq_dec (m_of T) 0) as [Hm|Hm].
    { rewrite ratio_test_no_rows_f64 in H by exact Hm. discriminate. }
    split; [unfold m_of in Hm; lia|]. exists p. split; [exact Hfn|].
    destruct (ratio_test_cases_f64 T p Hrect) as [[_ Hall] | (q & Hq & _)];
      [lia | exact Hall | congruence].
  - intros (Hrows & p & Hfn & Hall).
    destruct (simplexTableau_cases_f64 T Hrect) as [[Hno _] | (p' & Hfn' & Hs)]; [lia | |].
    + destruct Hfn as (Hp & Hneg & _). rewrite (Hno p Hp) in Hneg. discriminate.
    + rewrite Hs. rewrite (first_negative_unique_f64 _ _ _ Hfn' Hfn).
      destruct (ratio_test_cases_f64 T p Hrect) as [[Hu _] | (q & _ & Hlv)];
        [unfold m_of; lia | exact Hu |].
      destruct Hlv as (Hq & Hpos & Hinf & _).
      rewrite (Hall q Hq Hpos) in Hinf. discriminate.
Qed.

(** ** The heap during [pivoting] *)

Lemma deref_app_old_f64 (h : heap) (N : ndarray) (l : loc) :
  l < length h -> deref (h ++ [N]) l = deref h l.
Proof. intros Hl. unfold deref. apply app_nth1, Hl. Qed.

Lemma deref_app_new_f64 (h : heap) (N : ndarray) :
  deref (h ++ [N]) (length h) = N.
Proof. unfold deref. rewrite app_nth2, Nat.sub_diag by lia. reflexivity. Qed.

Lemma store_row_new_f64 (h : heap) (N : ndarray) (i : nat) (r : row) :
  store_row (h ++ [N]) (length h) i r = h ++ [Array (ncols N) (set_nth i r (rows N))].
Proof. unfold store_row. rewrite deref_app_new_f64. apply set_nth_app_last. Qed.

(** The loop writes the new array only, and reads the old one only. *)
Lemma fold_store_rows_f64 (F : ndarray -> nat -> row) (h : heap) (t : loc)
      (idxs : list nat) (n : nat) (N : list row) :
  t < length h ->
  fold_left (fun hh i => store_row hh (length h) i (F (deref hh t) i)) idxs
            (h ++ [Array n N])
  = h ++ [Array n (fold_left (fun N' i => set_nth i (F (deref h t) i) N') idxs N)].
Proof.
  intros Ht. revert N. induction idxs as [|i idxs IH]; intros N; simpl.
  - reflexivity.
  - rewrite store_row_new_f64, deref_app_old_f64 by exact Ht. apply IH.
Qed.

(** The rows written by [pivoting], whatever [np.empty] returned. *)
Lemma pivoting_rows_f64 (junk : nat -> nat -> float) (T : ndarray) (q : Z) (pi qi : nat) :
  index (nrows T) q = Some qi ->
  Array (ncols T)
    (fold_left
       (fun N i => set_nth i
          (map2 (fun a b => sub a (div (mul (get T i pi) b) (get T qi pi)))
                (get_row T i) (get_row T qi)) N)
       (other_rows (nrows T) q)
       (set_nth qi (map (fun x => div x (get T qi pi)) (get_row T qi))
                (rows (np_empty junk (nrows T) (ncols T)))))
  = pivoted T pi qi q.
Proof.
  intros Hq. destruct (index_inv _ _ _ Hq) as [Hqi Hcase].
  set (f := fun i => map2 (fun a b => sub a (div (mul (get T i pi) b) (get T qi pi)))
                          (get_row T i) (get_row T qi)).
  set (N0 := set_nth qi _ _).
  assert (HN0 : length N0 = nrows T)
    by (unfold N0, np_empty; cbn [rows];
        rewrite length_set_nth, length_map, length_seq; reflexivity).
  unfold pivoted. f_equal.
  apply (nth_ext _ _ [] []).
  - rewrite (fold_rows_length _ f), HN0. now rewrite length_map, length_seq.
  - intros j Hj. rewrite (fold_rows_length _ f), HN0 in Hj.
    rewrite nth_map_seq by exact Hj.
    destruct (Z.eqb_spec (Z.of_nat j) q) as [Hjq|Hjq].
    + assert (j = qi) by lia. subst j.
      rewrite (fold_rows_out _ f) by (rewrite in_other_rows; lia).
      unfold N0. apply nth_set_nth_eq. unfold np_empty; cbn [rows].
      rewrite length_map, length_seq. exact Hj.
    + rewrite (fold_rows_in _ f); [reflexivity | | lia].
      apply in_other_rows. split; assumption.
Qed.

Lemma pivoting_on_closed_f64 (junk : nat -> nat -> float) (h : heap) (t : loc) (p q : Z) :
  t < length h ->
  let T := deref h t in
  pivoting_on junk h t p q =
  if (q >=? Z.of_nat (nrows T))%Z then raise (PivotException RowOutOfRange)
  else if (p >=? Z.of_nat (ncols T))%Z then raise (PivotException ColumnOutOfRange)
  else
    match index (nrows T) q, index (ncols T) p with
    | Some qi, Some pi =>
        if ltb (abs (get T qi pi)) eps then raise (PivotException PivotTooSmall)
        else ret (h ++ [pivoted T pi qi q], length h)
    | _, _ => raise IndexError
    end.
Proof.
  intros Ht T. unfold pivoting_on. fold T.
  destruct (q >=? Z.of_nat (nrows T))%Z; [reflexivity|].
  destruct (p >=? Z.of_nat (ncols T))%Z; [reflexivity|].
  destruct (index (nrows T) q) as [qi|] eqn:Hq; [|reflexivity].
  destruct (index (ncols T) p) as [pi|]; [|reflexivity].
  destruct (ltb (abs (get T qi pi)) eps); [reflexivity|].
  unfold alloc. rewrite store_row_new_f64, deref_app_old_f64 by exact Ht. fold T.
  cbn [ncols np_empty].
  rewrite (fold_store_rows_f64
             (fun A i => map2 (fun a b => sub a (div (mul (get A i pi) b) (get T qi pi)))
                              (get_row A i) (get_row A qi)))
    by exact Ht.
  cbv beta. fold T.
  apply (f_equal (fun R : ndarray => ret (h ++ [R], length h))).
  exact (pivoting_rows_f64 junk T q pi qi Hq).
Qed.

Lemma pivoting_closed_f64 (T : ndarray) (p q : Z) :
  pivoting T p q =
  if (q >=? Z.of_nat (nrows T))%Z then raise (PivotException RowOutOfRange)
  else if (p >=? Z.of_nat (ncols T))%Z then raise (PivotException ColumnOutOfRange)
  else
    match index (nrows T) q, index (ncols T) p with
    | Some qi, Some pi =>
        if ltb (abs (get T qi pi)) eps then raise (PivotException PivotTooSmall)
        else ret (pivoted T pi qi q)
    | _, _ => raise IndexError
    end.
Proof.
  unfold pivoting. rewrite pivoting_on_closed_f64 by (simpl; lia).
  change (deref [T] 0) with T.
  destruct (q >=? Z.of_nat (nrows T))%Z; [reflexivity|].
  destruct (p >=? Z.of_nat (ncols T))%Z; [reflexivity|].
  destruct (index (nrows T) q) as [qi|]; [|reflexivity].
  destruct (index (ncols T) p) as [pi|]; [|reflexivity].
  destruct (ltb (abs (get T qi pi)) eps); reflexivity.
Qed.

(** ** The pivoted array *)

Lemma nrows_pivoted_f64 (T : ndarray) (pi qi : nat) (q : Z) :
  nrows (pivoted T pi qi q) = nrows T.
Proof. unfold pivoted, nrows. cbn [rows]. now rewrite length_map, length_seq. Qed.

Lemma get_row_pivoted_f64 (T : ndarray) (pi qi : nat) (q : Z) (i : nat) :
  i < nrows T ->
  get_row (pivoted T pi qi q) i =
  if (Z.of_nat i =? q)%Z
  then map (fun x => div x (get T qi pi)) (get_row T i)
  else map2 (fun a b => sub a (div (mul (get T i pi) b) (get T qi pi)))
            (get_row T i) (get_row T qi).
Proof. intros Hi. unfold get_row at 1, pivoted. cbn [rows]. now rewrite nth_map_seq. Qed.

Lemma rectangular_pivoted_f64 (T : ndarray) (pi qi : nat) (q : Z) :
  rectangular T -> qi < nrows T -> rectangular (pivoted T pi qi q).
Proof.
  intros Hrect Hqi. unfold rectangular. apply Forall_forall. intros r Hin.
  destruct (In_nth _ _ [] Hin) as (i & Hi & <-).
  change (length (rows (pivoted T pi qi q))) with (nrows (pivoted T pi qi q)) in Hi.
  rewrite nrows_pivoted_f64 in Hi.
  change (nth i (rows (pivoted T pi qi q)) []) with (get_row (pivoted T pi qi q) i).
  rewrite get_row_pivoted_f64 by exact Hi. cbn [ncols pivoted].
  destruct (Z.of_nat i =? q)%Z.
  - rewrite length_map. now apply rectangular_row_f64.
  - rewrite length_map2, !rectangular_row_f64 by assumption. apply Nat.min_id.
Qed.

(** Every entry of a row other than the one that [q] names. *)
Lemma get_pivoted_reduced_f64 (T : ndarray) (pi qi i j : nat) (q : Z) :
  rectangular T -> qi < nrows T -> i < nrows T -> Z.of_nat i <> q -> j < ncols T ->
  get (pivoted T pi qi q) i j =
  sub (get T i j) (div (mul (get T i pi) (get T qi j)) (get T qi pi)).
Proof.
  intros Hrect Hqi Hi Hne Hj. unfold get at 1. rewrite get_row_pivoted_f64 by exact Hi.
  destruct (Z.eqb_spec (Z.of_nat i) q) as [E|_]; [contradiction|].
  rewrite (nth_map2 _ _ _ _ 0%float 0%float)
    by (rewrite rectangular_row_f64; assumption).
  reflexivity.
Qed.



(** An array that [pivoting] returns has the shape of its argument. *)
Lemma pivoting_shape_f64 (T T' : ndarray) (p q : Z) :
  rectangular T -> pivoting T p q = inr T' ->
  nrows T' = nrows T /\ ncols T' = ncols T /\ rectangular T'.
Proof.
  intros Hrect. rewrite pivoting_closed_f64.
  destruct (q >=? Z.of_nat (nrows T))%Z; [discriminate|].
  destruct (p >=? Z.of_nat (ncols T))%Z; [discriminate|].
  destruct (index (nrows T) q) as [qi|] eqn:Hq; [|discriminate].
  destruct (index (ncols T) p) as [pi|]; [|discriminate].
  destruct (ltb (abs (get T qi pi)) eps); [discriminate|].
  intros E. injection E as <-. apply index_inv in Hq. destruct Hq as [Hq _].
  split; [apply nrows_pivoted_f64|].
  split; [reflexivity | now apply rectangular_pivoted_f64].
Qed.

(** ** The loop *)

Lemma simplexAlgorithmTableau_returns_f64 (fuel : nat) (T T' : ndarray) (s : status) :
  simplexAlgorithmTableau fuel T = Some (inr (T', s)) ->
  exists k, k < fuel /\ tableau_at k T = Some T' /\
            simplexTableau T' = inr (decision_of s).
Proof.
  revert T; induction fuel as [|fuel IH]; intros T; simpl; [discriminate|].
  destruct (simplexTableau T) as [e|[| |p q]] eqn:Hd.
  - discriminate.
  - intros H. injection H as <- <-. exists 0. split; [lia|]. split; [reflexivity | exact Hd].
  - intros H. injection H as <- <-. exists 0. split; [lia|]. split; [reflexivity | exact Hd].
  - destruct (pivoting T (Z.of_nat p) (Z.of_nat q)) as [e|T1'] eqn:Hp; [discriminate|].
    intros H. destruct (IH _ H) as (k & Hk & Hat & Hs).
    exists (S k). split; [lia|]. split; [|exact Hs].
    simpl. rewrite Hd, Hp. exact Hat.
Qed.

Lemma tableau_at_shape_f64 (k : nat) (T T' : ndarray) :
  rectangular T -> tableau_at k T = Some T' ->
  nrows T' = nrows T /\ ncols T' = ncols T /\ rectangular T'.
Proof.
  revert T; induction k as [|k IH]; intros T Hrect; simpl.
  - intros H. injection H as <-. auto.
  - destruct (simplexTableau T) as [e|[| |p q]]; try discriminate.
    destruct (pivoting T (Z.of_nat p) (Z.of_nat q)) as [e|T1'] eqn:Hp; [discriminate|].
    destruct (pivoting_shape_f64 _ _ _ _ Hrect Hp) as (Hr & Hc & Hrect').
    intros H. destruct (IH _ Hrect' H) as (Hr' & Hc' & Hrect'').
    split; [congruence|]. split; [congruence | exact Hrect''].
Qed.


(** ** The claims that the arithmetic decides *)

(** A literal array is rectangular by inspection. *)
Ltac by_inspection_f64 :=
  unfold well_formed, rectangular; simpl; repeat constructor.

(** C1 as it is written fails.  Every entry of [T_overflow] is finite.
    The loop pivots twice: a product overflows to [inf], then [inf - inf]
    is NaN.  It returns with status Optimal a tableau whose reduced cost of
    column 1 is NaN, and [0 <= NaN] is false. *)
Lemma C1_counterexample :
  well_formed T_overflow /\ all_finite T_overflow = true /\
  exists T',
    simplexAlgorithmTableau 3 T_overflow = Some (inr (T', StatusOptimal)) /\
    1 < n_of T' /\ is_nan (cost T' 1) = true /\ leb 0 (cost T' 1) = false.
Proof.
  split; [by_inspection_f64|]. split; [reflexivity|].
  eexists. split; [vm_compute; reflexivity|].
  split; [vm_compute; lia|]. split; reflexivity.
Qed.

(** C1, amended.  When the loop returns with status Optimal, the returned
    array is the one the last iteration started with, as it is:
    [simplexTableau] answers Optimal on it, and no reduced cost of its last
    row, the right-hand side left out, is [< 0]: each is [>= 0] or NaN. *)
Theorem C1_optimal_certificate (fuel : nat) (T T' : ndarray) :
  rectangular T ->
  simplexAlgorithmTableau fuel T = Some (inr (T', StatusOptimal)) ->
  (exists k, k < fuel /\ tableau_at k T = Some T') /\
  simplexTableau T' = inr Optimal /\
  forall j, j < n_of T' ->
            ltb (cost T' j) 0%float = false /\
            (leb 0%float (cost T' j) = true \/ is_nan (cost T' j) = true).
Proof.
  intros Hrect H.
  destruct (simplexAlgorithmTableau_returns_f64 _ _ _ _ H) as (k & Hk & Hat & Hopt).
  split; [exists k; split; assumption|]. split; [exact Hopt|].
  destruct (tableau_at_shape_f64 _ _ _ Hrect Hat) as (_ & _ & Hrect').
  pose proof (simplexTableau_rows_f64 _ _ Hopt) as Hrows.
  apply simplexTableau_optimal_f64 in Hopt.
  destruct (entering_column_cases_f64 T' Hrect' Hrows) as [[Hall _] | (p & _ & He)];
    [|congruence].
  intros j Hj. split; [exact (Hall j Hj)|].
  destruct (fltb_false_leb _ _ (Hall j Hj)) as [Hn | [Hn | Hle]];
    [right; exact Hn | discriminate Hn | left; exact Hle].
Qed.

Lemma C1_optimal_certificate_witness :
  rectangular T3 /\
  exists T',
    simplexAlgorithmTableau 2 T3 = Some (inr (T', StatusOptimal)) /\
    (exists k, k < 2 /\ tableau_at k T3 = Some T') /\
    simplexTableau T' = inr Optimal /\
    forall j, j < n_of T' ->
              ltb (cost T' j) 0%float = false /\
              (leb 0%float (cost T' j) = true \/ is_nan (cost T' j) = true).
Proof.
  assert (Hrect : rectangular T3) by by_inspection_f64.
  split; [exact Hrect|].
  eexists. split; [vm_compute; reflexivity|].
  apply (C1_optimal_certificate 2 T3 _ Hrect). vm_compute. reflexivity.
Defined.

(** C3 as it is written fails.  On [T_tie] both constraint rows have a
    positive entry in the entering column 0; the ratio of row 1, fl(1/3)
    over 1, is less than the ratio of row 0, 1 over 3, and the code returns
    row 0: the two quotients round to the same float.  On [T_big_ratio] the
    entering column has a positive entry in row 0, whose quotient overflows
    to [inf]: no row is returned. *)
Lemma C3_counterexample :
  (well_formed T_tie /\ all_finite T_tie = true /\
   entering_column T_tie = inr (Some 0) /\
   ltb 0 (get T_tie 0 0) = true /\ ltb 0 (get T_tie 1 0) = true /\
   simplexTableau T_tie = inr (Pivot 0 0) /\
   exists a b c d,
     exact (get T_tie 0 1) = Some a /\ exact (get T_tie 0 0) = Some b /\
     exact (get T_tie 1 1) = Some c /\ exact (get T_tie 1 0) = Some d /\
     (c / d < a / b)%Q) /\
  (well_formed T_big_ratio /\ all_finite T_big_ratio = true /\
   entering_column T_big_ratio = inr (Some 0) /\
   ltb 0 (get T_big_ratio 0 0) = true /\
   simplexTableau T_big_ratio = inr UnboundedDir).
Proof.
  split.
  - split; [by_inspection_f64|]. repeat (split; [reflexivity|]).
    do 4 eexists. repeat (split; [vm_compute; reflexivity|]).
    vm_compute. reflexivity.
  - split; [by_inspection_f64|]. repeat (split; [reflexivity|]). reflexivity.
Qed.

(** C3, amended.  On an array whose entering column [p] has, in a
    constraint row, a positive entry with a computed quotient
    [tableau[i][n] / tableau[i][p]] other than [inf], the answer is
    [Pivot p q] where [q] is the leaving row: a row with a positive entry
    and a computed quotient other than [inf], the first one whose quotient
    is NaN when there is one, and otherwise the first one that attains the
    least computed quotient among the rows with [tableau[i][p] > 0].  The
    quotients compared are the rounded ones.  On [T3] the answer is
    [Pivot 1 1]. *)
Theorem C3_min_ratio_leaves :
  (forall (T : ndarray) (p : nat),
      rectangular T ->
      entering_column T = inr (Some p) ->
      (exists i, i < m_of T /\ ltb 0 (get T i p) = true /\
                 eqb (ratio T p i) infinity = false) ->
      exists q, simplexTableau T = inr (Pivot p q) /\ leaving_row T p q) /\
  simplexTableau T3 = inr (Pivot 1 1).
Proof.
  split; [|reflexivity].
  intros T p Hrect He (i & Hi & Hpos & Hfin).
  unfold simplexTableau. rewrite He. cbn [bind].
  destruct (ratio_test_cases_f64 T p Hrect) as [[_ Hu] | Hq]; [lia | |exact Hq].
  rewrite (Hu i Hi Hpos) in Hfin. discriminate.
Qed.

Lemma C3_min_ratio_leaves_witness :
  rectangular T3 /\ entering_column T3 = inr (Some 1) /\
  (exists i, i < m_of T3 /\ ltb 0 (get T3 i 1) = true /\
             eqb (ratio T3 1 i) infinity = false) /\
  exists q, simplexTableau T3 = inr (Pivot 1 q) /\ leaving_row T3 1 q.
Proof.
  assert (Hrect : rectangular T3) by by_inspection_f64.
  assert (Hpos : exists i, i < m_of T3 /\ ltb 0 (get T3 i 1) = true /\
                           eqb (ratio T3 1 i) infinity = false).
  { exists 1. split; [vm_compute; lia | split; reflexivity]. }
  split; [exact Hrect|]. split; [reflexivity|]. split; [exact Hpos|].
  exact (proj1 C3_min_ratio_leaves T3 1 Hrect eq_refl Hpos).
Defined.

(** C4 as it is written fails.  On [T_big_ratio] the entering column 0
    has a positive entry in the constraint row, and the answer is
    Unbounded, from [simplexTableau] and from the loop: the quotient
    2^1000 / 2^-1000 overflows to [inf].  On the single row [T_one_row] a
    reduced cost is negative and there is no constraint row, so no positive
    entry, and the answer is no Unbounded but numpy's ValueError. *)
Lemma C4_counterexample :
  (well_formed T_big_ratio /\ all_finite T_big_ratio = true /\
   first_negative T_big_ratio 0 /\ ltb 0 (get T_big_ratio 0 0) = true /\
   simplexTableau T_big_ratio = inr UnboundedDir /\
   simplexAlgorithmTableau 1 T_big_ratio = Some (inr (T_big_ratio, StatusUnbounded))) /\
  (rectangular T_one_row /\ first_negative T_one_row 0 /\ m_of T_one_row = 0 /\
   simplexTableau T_one_row = inl ValueError).
Proof.
  assert (Hfn : forall T, 0 < n_of T -> ltb (cost T 0) 0%float = true ->
                          first_negative T 0).
  { intros T Hn Hc. split; [exact Hn|]. split; [exact Hc|]. intros j Hj. lia. }
  split.
  - split; [by_inspection_f64|]. split; [reflexivity|].
    split; [apply Hfn; [vm_compute; lia | reflexivity]|].
    repeat split; reflexivity.
  - split; [by_inspection_f64|].
    split; [apply Hfn; [vm_compute; lia | reflexivity]|].
    split; reflexivity.
Qed.

(** C4, amended.  [simplexTableau] answers Unbounded exactly when the
    array has a constraint row, a reduced cost is negative and, in the
    entering column, the first negative one, every constraint row with a
    positive entry has a computed quotient equal to [inf] (none has a
    positive entry, or each quotient overflows or is [inf / x]).  So when
    the loop returns with status Unbounded, [simplexTableau] on the
    returned array still answers Unbounded, with such a column. *)
Theorem C4_unbounded_certificate :
  (forall T : ndarray,
      rectangular T ->
      (simplexTableau T = inr UnboundedDir <->
       2 <= nrows T /\
       exists p, first_negative T p /\
                 forall i, i < m_of T -> ltb 0 (get T i p) = true ->
                           eqb (ratio T p i) infinity = true)) /\
  (forall (fuel : nat) (T T' : ndarray),
      rectangular T ->
      simplexAlgorithmTableau fuel T = Some (inr (T', StatusUnbounded)) ->
      simplexTableau T' = inr UnboundedDir /\
      exists p, first_negative T' p /\
                forall i, i < m_of T' -> ltb 0 (get T' i p) = true ->
                          eqb (ratio T' p i) infinity = true).
Proof.
  split.
  - intros T Hrect. now apply simplexTableau_unbounded_f64.
  - intros fuel T T' Hrect H.
    destruct (simplexAlgorithmTableau_returns_f64 _ _ _ _ H) as (k & Hk & Hat & Hu).
    split; [exact Hu|].
    destruct (tableau_at_shape_f64 _ _ _ Hrect Hat) as (_ & _ & Hrect').
    apply (simplexTableau_unbounded_f64 T' Hrect') in Hu. apply Hu.
Qed.

Lemma C4_unbounded_certificate_witness :
  rectangular T2 /\
  simplexAlgorithmTableau 1 T2 = Some (inr (T2, StatusUnbounded)) /\
  (simplexTableau T2 = inr UnboundedDir /\
   exists p, first_negative T2 p /\
             forall i, i < m_of T2 -> ltb 0 (get T2 i p) = true ->
                       eqb (ratio T2 p i) infinity = true).
Proof.
  assert (Hrect : rectangular T2) by by_inspection_f64.
  split; [exact Hrect|]. split; [reflexivity|].
  exact (proj2 C4_unbounded_certificate 1 T2 T2 Hrect eq_refl).
Defined.




(** ** Row indices from the end, and the order of the checks *)

(** X12.  A row index from [-(number of rows)] to [-1] passes the checks
    of [pivoting] and addresses a row from the end; under that index the
    row is not in [range(m)], so the loop over the other rows writes it
    too.  Every row of the returned array, the addressed one included, is
    the old row minus the quotient by the pivot of its entry in column [p]
    times the addressed row: the addressed row is not the old one divided
    by the pivot. *)
Theorem X12_negative_row_index (T : ndarray) (p : nat) (q : Z) :
  rectangular T ->
  (- Z.of_nat (nrows T) <= q < 0)%Z -> p < ncols T ->
  ltb (abs (get T (Z.to_nat (q + Z.of_nat (nrows T))) p)) eps = false ->
  exists T',
    pivoting T (Z.of_nat p) q = inr T' /\
    forall i j, i < nrows T -> j < ncols T ->
      get T' i j =
      sub (get T i j)
          (div (mul (get T i p) (get T (Z.to_nat (q + Z.of_nat (nrows T))) j))
               (get T (Z.to_nat (q + Z.of_nat (nrows T))) p)).
Proof.
  intros Hrect Hq Hp. set (qi := Z.to_nat (q + Z.of_nat (nrows T))). intros Hbig.
  assert (Hqi : qi < nrows T) by (unfold qi; lia).
  exists (pivoted T p qi q).
  assert (Hidx : index (nrows T) q = Some qi).
  { unfold index. destruct (Z.leb_spec 0 q); [lia|].
    destruct (Z.leb_spec (- Z.of_nat (nrows T)) q); [reflexivity | lia]. }
  split.
  - rewrite pivoting_closed_f64.
    destruct (Z.geb_spec q (Z.of_nat (nrows T))); [lia|].
    destruct (Z.geb_spec (Z.of_nat p) (Z.of_nat (ncols T))); [lia|].
    rewrite Hidx, index_of_nat by exact Hp.
    rewrite Hbig. reflexivity.
  - intros i j Hi Hj. apply get_pivoted_reduced_f64; (assumption || lia).
Qed.

Lemma X12_negative_row_index_witness :
  rectangular T3 /\ (- Z.of_nat (nrows T3) <= -2 < 0)%Z /\ 1 < ncols T3 /\
  ltb (abs (get T3 (Z.to_nat (-2 + Z.of_nat (nrows T3))) 1)) eps = false /\
  exists T',
    pivoting T3 1 (-2) = inr T' /\
    (forall i j, i < nrows T3 -> j < ncols T3 ->
       get T' i j =
       sub (get T3 i j) (div (mul (get T3 i 1) (get T3 1 j)) (get T3 1 1))) /\
    get_row T' 1 = [0; 0; 0; 0; 0]%float /\
    map (fun x => div x (get T3 1 1)) (get_row T3 1) = [0; 1; -0.5; 0.5; 2]%float.
Proof.
  assert (Hrect : rectangular T3) by by_inspection_f64.
  assert (Hq : (- Z.of_nat (nrows T3) <= -2 < 0)%Z) by (vm_compute; split; congruence).
  assert (Hp : 1 < ncols T3) by (vm_compute; lia).
  assert (Hbig : ltb (abs (get T3 (Z.to_nat (-2 + Z.of_nat (nrows T3))) 1)) eps = false)
    by reflexivity.
  repeat (split; [assumption|]).
  destruct (X12_negative_row_index T3 1 (-2) Hrect Hq Hp Hbig) as (T' & H1 & H2).
  exists T'. split; [exact H1|]. split; [exact H2|].
  split; [|vm_compute; reflexivity].
  assert (E : pivoting T3 (Z.of_nat 1) (-2) = inr (pivoted T3 1 1 (-2)))
    by (vm_compute; reflexivity).
  rewrite E in H1. injection H1 as <-. vm_compute. reflexivity.
Defined.

Lemma pivoting_outcome_f64 (T : ndarray) (p q : Z) :
  (pivoting T p q = inl (PivotException RowOutOfRange) <->
   (Z.of_nat (nrows T) <= q)%Z) /\
  (pivoting T p q = inl (PivotException ColumnOutOfRange) <->
   (q < Z.of_nat (nrows T))%Z /\ (Z.of_nat (ncols T) <= p)%Z) /\
  (pivoting T p q = inl IndexError <->
   (q < Z.of_nat (nrows T))%Z /\ (p < Z.of_nat (ncols T))%Z /\
   ((q < - Z.of_nat (nrows T))%Z \/ (p < - Z.of_nat (ncols T))%Z)) /\
  (pivoting T p q = inl (PivotException PivotTooSmall) <->
   exists qi pi, index (nrows T) q = Some qi /\ index (ncols T) p = Some pi /\
                 ltb (abs (get T qi pi)) eps = true).
Proof.
  rewrite pivoting_closed_f64.
  destruct (Z.geb_spec q (Z.of_nat (nrows T))) as [Hq|Hq].
  { repeat split; try discriminate; try lia; try (intros _; reflexivity).
    intros (qi & pi & E & _). apply index_inv in E. lia. }
  destruct (Z.geb_spec p (Z.of_nat (ncols T))) as [Hp|Hp].
  { repeat split; try discriminate; try lia; try (intros _; reflexivity).
    intros (qi & pi & _ & E & _). apply index_inv in E. lia. }
  destruct (index (nrows T) q) as [qi|] eqn:Hqi.
  - destruct (index (ncols T) p) as [pi|] eqn:Hpi.
    + pose proof (index_inv _ _ _ Hqi). pose proof (index_inv _ _ _ Hpi).
      destruct (ltb (abs (get T qi pi)) eps) eqn:Hsmall.
      * repeat split; try discriminate; try lia.
        intros _. exists qi, pi. auto.
      * repeat split; try discriminate; try lia.
        intros (qi' & pi' & E1 & E2 & Hlt).
        injection E1 as <-. injection E2 as <-. congruence.
    + apply index_none in Hpi.
      repeat split; try discriminate; try lia; try (intros _; reflexivity).
      intros (qi' & pi' & _ & E & _). discriminate.
  - apply index_none in Hqi.
    repeat split; try discriminate; try lia; try (intros _; reflexivity).
    intros (qi' & pi' & E & _). discriminate.
Qed.

(** X13.  Which exception [pivoting] raises, on any array and any two
    integers.  The row is tested first: a row index at or past the number
    of rows gives the row exception whatever the column; then the column;
    then the entry is read, which raises [IndexError] for an index below
    minus the length; then its magnitude is compared with [eps].  On an
    array of shape (0, 3) the column 1 passes and the row -1 raises
    [IndexError]. *)
Theorem X13_pivoting_exception_order :
  (forall (T : ndarray) (p q : Z),
     (pivoting T p q = inl (PivotException RowOutOfRange) <->
      (Z.of_nat (nrows T) <= q)%Z) /\
     (pivoting T p q = inl (PivotException ColumnOutOfRange) <->
      (q < Z.of_nat (nrows T))%Z /\ (Z.of_nat (ncols T) <= p)%Z) /\
     (pivoting T p q = inl IndexError <->
      (q < Z.of_nat (nrows T))%Z /\ (p < Z.of_nat (ncols T))%Z /\
      ((q < - Z.of_nat (nrows T))%Z \/ (p < - Z.of_nat (ncols T))%Z)) /\
     (pivoting T p q = inl (PivotException PivotTooSmall) <->
      exists qi pi, index (nrows T) q = Some qi /\ index (ncols T) p = Some pi /\
                    ltb (abs (get T qi pi)) eps = true)) /\
  pivoting (Array 3 []) 1 (-1) = inl IndexError /\
  pivoting (Array 3 []) 1 0 = inl (PivotException RowOutOfRange).
Proof.
  split; [exact pivoting_outcome_f64|]. split; reflexivity.
Qed.

(** ** The runs of the notebooks in binary64 *)

(** X21.  The run of the notebook on its 4 x 7 tableau, in binary64: the
    loop is still running after three iterations and returns in the fourth,
    with status Optimal and exactly 136 in row 3, last column.  The reduced
    costs of columns 4 and 5, both 8/5 in exact arithmetic, come out as two
    different floats, and the notebook prints 1.6 for each.  On the 2 x 3
    tableau the first iteration returns Unbounded. *)
Theorem X21_notebook_runs_float64 :
  simplexAlgorithmTableau 3 T1 = None /\
  (exists T',
     simplexAlgorithmTableau 4 T1 = Some (inr (T', StatusOptimal)) /\
     get T' 3 6 = 136%float /\
     get_row T' 3 = [0; 0; 0; 0x1.ccccccccccccdp+1; 0x1.999999999999ap+0;
                     0x1.9999999999998p+0; 136]%float /\
     ltb (get T' 3 5) (get T' 3 4) = true) /\
  simplexAlgorithmTableau 1 T2 = Some (inr (T2, StatusUnbounded)).
Proof.
  split; [vm_compute; reflexivity|]. split; [|vm_compute; reflexivity].
  eexists. split; [vm_compute; reflexivity|].
  split; [reflexivity|]. split; reflexivity.
Qed.

End Float64.

(** * The line search *)








(** ** The records of the iterations *)




(** ** What is printed *)


